(** * Project Guardian 2.0: the PII detector and redactor

    A shallow embedding of [PIIDetector] (src/detector_Barath_S.py): the
    regular expressions of [__init__], the detectors [is_*], [extract_names],
    [redact_text], [analyze_record] and the choice of the payload column in
    [process_csv], with the properties of the
    specification stated and settled against them.

    Modelling choices.
    - A Python [str] is a list of characters; a character is a code point in
      U+0000..U+00FF (Rocq's [ascii]), with Python's classification of those
      code points ([str.isspace], [\d], [\w], [str.lower]).
    - A compiled pattern is a sequence of greedy repetitions of one character
      class and of zero-width assertions: every pattern of the source has
      that form.  The matcher backtracks the way [re] does: a repetition
      takes as many characters as it can and gives them back one by one.
    - An operation that can raise in Python (indexing a list or a string)
      returns [option]; [None] is the exception.
    - A record is a [dict] in insertion order: an association list.  Its
      values are the scalars [None], strings, integers and booleans; floats
      and nested values are left out. *)

From Stdlib Require Import Ascii String DecimalString.
From Stdlib Require Import List Bool Arith Lia ZArith Permutation.
Import ListNotations.

Set Implicit Arguments.
Local Open Scope list_scope.

(** ** Characters and strings *)

Definition str := list ascii.

(** A string literal. *)
Definition lit (s : string) : str := list_ascii_of_string s.

Definition code (c : ascii) : nat := nat_of_ascii c.

Definition in_range (lo hi : nat) (c : ascii) : bool :=
  (lo <=? code c) && (code c <=? hi).

Definition is_char (x : ascii) (c : ascii) : bool := Ascii.eqb c x.

(** [\d]: the decimal digits (there is no other below U+0100). *)
Definition is_digit : ascii -> bool := in_range 48 57.
Definition is_upper : ascii -> bool := in_range 65 90.
Definition is_lower : ascii -> bool := in_range 97 122.
Definition is_alpha (c : ascii) : bool := is_upper c || is_lower c.

(** [\s] and [str.isspace]: TAB..CR, FS..US, SPACE, NEL and NBSP. *)
Definition is_space (c : ascii) : bool :=
  in_range 9 13 c || in_range 28 32 c || (code c =? 133) || (code c =? 160).

(** [\w]: [str.isalnum] or the underscore. *)
Definition is_word (c : ascii) : bool :=
  is_digit c || is_alpha c || (code c =? 95)
  || (code c =? 170) || (code c =? 178) || (code c =? 179) || (code c =? 181)
  || (code c =? 185) || (code c =? 186) || in_range 188 190 c
  || in_range 192 214 c || in_range 216 246 c || in_range 248 255 c.

(** [str.lower] on one character. *)
Definition lower_char (c : ascii) : ascii :=
  if is_upper c || in_range 192 214 c || in_range 216 222 c
  then ascii_of_nat (code c + 32) else c.

Definition lower (s : str) : str := map lower_char s.

Fixpoint str_eqb (a b : str) : bool :=
  match a, b with
  | [], [] => true
  | x :: a', y :: b' => Ascii.eqb x y && str_eqb a' b'
  | _, _ => false
  end.

(** [x in xs] for a list of strings. *)
Definition str_in (x : str) (xs : list str) : bool := existsb (str_eqb x) xs.

Fixpoint lstrip (s : str) : str :=
  match s with
  | c :: s' => if is_space c then lstrip s' else s
  | [] => []
  end.

Definition rstrip (s : str) : str := rev (lstrip (rev s)).

(** [str.strip()] *)
Definition strip (s : str) : str := lstrip (rstrip s).

(** [str.split()]: the maximal runs of characters that are not whitespace.
    [cur] is the run being read. *)
Fixpoint split_ws_from (cur : str) (s : str) : list str :=
  match s with
  | [] => match cur with [] => [] | _ => [cur] end
  | c :: s' =>
      if is_space c
      then match cur with
           | [] => split_ws_from [] s'
           | _ => cur :: split_ws_from [] s'
           end
      else split_ws_from (cur ++ [c]) s'
  end.

Definition split_ws (s : str) : list str := split_ws_from [] s.

(** [str.split(sep)] for a separator of one character. *)
Fixpoint split_on (sep : ascii) (s : str) : list str :=
  match s with
  | [] => [[]]
  | c :: s' =>
      if Ascii.eqb c sep then [] :: split_on sep s'
      else match split_on sep s' with
           | p :: ps => (c :: p) :: ps
           | [] => [[c]]
           end
  end.

(** [s[-n:]] *)
Definition lastn (n : nat) (s : str) : str := skipn (length s - n) s.

Fixpoint is_prefix (p s : str) : bool :=
  match p, s with
  | [], _ => true
  | x :: p', y :: s' => Ascii.eqb x y && is_prefix p' s'
  | _ :: _, [] => false
  end.

(** [str.replace(old, new)] for a non-empty [old]: the occurrences of [old]
    are found from the left and do not overlap.  [skip] counts the characters
    of an occurrence still to be dropped. *)
Fixpoint replace_from (old new : str) (skip : nat) (s : str) : str :=
  match s with
  | [] => []
  | c :: s' =>
      match skip with
      | S k => replace_from old new k s'
      | 0 =>
          if is_prefix old s
          then new ++ replace_from old new (length old - 1) s'
          else c :: replace_from old new 0 s'
      end
  end.

(** With an empty [old], Python puts [new] before every character and at the
    end. *)
Definition replace (s old new : str) : str :=
  match old with
  | [] => flat_map (fun c => new ++ [c]) s ++ new
  | _ => replace_from old new 0 s
  end.

(** [sub in s]: [sub] occurs in [s]. *)
Fixpoint contains (sub s : str) : bool :=
  is_prefix sub s
  || match s with
     | [] => false
     | _ :: s' => contains sub s'
     end.

(** ** Regular expressions *)

Inductive item : Type :=
| Rep (cls : ascii -> bool) (lo : nat) (hi : option nat)
      (** [cls{lo,hi}], greedy; [hi = None] is no upper bound *)
| WordB  (** [\b] *)
| Bos    (** [^] *)
| Eos.   (** [$] *)

Definition regex := list item.

Definition one (cls : ascii -> bool) : item := Rep cls 1 (Some 1).
Definition opt (cls : ascii -> bool) : item := Rep cls 0 (Some 1).
Definition plus (cls : ascii -> bool) : item := Rep cls 1 None.
Definition exactly (n : nat) (cls : ascii -> bool) : item := Rep cls n (Some n).

Fixpoint prefix_len (cls : ascii -> bool) (s : str) : nat :=
  match s with
  | c :: s' => if cls c then S (prefix_len cls s') else 0
  | [] => 0
  end.

Definition cap (hi : option nat) (s : str) : str :=
  match hi with
  | Some h => firstn h s
  | None => s
  end.

Definition word_opt (c : option ascii) : bool :=
  match c with
  | Some x => is_word x
  | None => false
  end.

(** [\b] holds where exactly one of the two neighbours is a word character;
    outside the string there is none. *)
Definition at_boundary (prev : option ascii) (s : str) : bool :=
  negb (Bool.eqb (word_opt prev) (word_opt (hd_error s))).

(** [$] holds at the end and before a final newline. *)
Definition at_end (s : str) : bool :=
  match s with
  | [] => true
  | [c] => code c =? 10
  | _ => false
  end.

(** The character before the position reached after [k] more characters. *)
Definition prev_after (prev : option ascii) (s : str) (k : nat) : option ascii :=
  match k with
  | 0 => prev
  | S k' => nth_error s k'
  end.

(** Tries the counts [n], [n-1], ..., [lo] in that order. *)
Fixpoint try_down (f : nat -> option nat) (lo n : nat) : option nat :=
  if n <? lo then None
  else match f n with
       | Some m => Some (n + m)
       | None =>
           match n with
           | 0 => None
           | S n' => try_down f lo n'
           end
       end.

(** [match_here r prev s]: the length of the match of [r] that starts at the
    head of [s], where [prev] is the character before it. *)
Fixpoint match_here (r : regex) (prev : option ascii) (s : str) : option nat :=
  match r with
  | [] => Some 0
  | Rep cls lo hi :: r' =>
      try_down (fun k => match_here r' (prev_after prev s k) (skipn k s))
               lo (prefix_len cls (cap hi s))
  | WordB :: r' => if at_boundary prev s then match_here r' prev s else None
  | Bos :: r' =>
      match prev with
      | None => match_here r' prev s
      | Some _ => None
      end
  | Eos :: r' => if at_end s then match_here r' prev s else None
  end.

(** [pattern.search(s)] as a truth value. *)
Fixpoint search_from (r : regex) (prev : option ascii) (s : str) : bool :=
  match match_here r prev s with
  | Some _ => true
  | None =>
      match s with
      | [] => false
      | c :: s' => search_from r (Some c) s'
      end
  end.

Definition search (r : regex) (s : str) : bool := search_from r None s.

(** [re.match(r, s)] as a truth value. *)
Definition rmatch (r : regex) (s : str) : bool :=
  match match_here r None s with
  | Some _ => true
  | None => false
  end.

(** [pattern.findall(s)] for a pattern without groups. *)
Fixpoint findall_from (r : regex) (skip : nat) (prev : option ascii) (s : str)
  : list str :=
  match skip with
  | S k =>
      match s with
      | [] => []
      | c :: s' => findall_from r k (Some c) s'
      end
  | 0 =>
      match match_here r prev s with
      | Some n =>
          firstn n s ::
          match s with
          | [] => []
          | c :: s' => findall_from r (n - 1) (Some c) s'
          end
      | None =>
          match s with
          | [] => []
          | c :: s' => findall_from r 0 (Some c) s'
          end
      end
  end.

Definition findall (r : regex) (s : str) : list str := findall_from r 0 None s.

(** [pattern.sub(repl, s)] for a function [repl] that may raise.  After a
    match of [n > 0] characters the next [n - 1] are skipped; an empty match
    is replaced and the character after it copied. *)
Fixpoint sub_from (r : regex) (repl : str -> option str) (skip : nat)
         (prev : option ascii) (s : str) : option str :=
  match skip with
  | S k =>
      match s with
      | [] => Some []
      | c :: s' => sub_from r repl k (Some c) s'
      end
  | 0 =>
      match match_here r prev s with
      | Some n =>
          match repl (firstn n s) with
          | None => None
          | Some out =>
              match s with
              | [] => Some out
              | c :: s' =>
                  match sub_from r repl (n - 1) (Some c) s' with
                  | None => None
                  | Some rest =>
                      Some (out ++ (if n =? 0 then [c] else []) ++ rest)
                  end
              end
          end
      | None =>
          match s with
          | [] => Some []
          | c :: s' =>
              match sub_from r repl 0 (Some c) s' with
              | None => None
              | Some rest => Some (c :: rest)
              end
          end
      end
  end.

Definition sub (r : regex) (repl : str -> option str) (s : str) : option str :=
  sub_from r repl 0 None s.

(** ** Exceptions *)

Definition bind {A B : Type} (m : option A) (f : A -> option B) : option B :=
  match m with
  | Some a => f a
  | None => None
  end.

Notation "'do' x <- m ; k" := (bind m (fun x => k))
  (at level 10, x name, m at level 100, k at level 200).

(** ** The detector: [PIIDetector] *)

Module PIIDetector.

Definition char_in (cs : string) (c : ascii) : bool :=
  existsb (Ascii.eqb c) (lit cs).

Definition is_alnum (c : ascii) : bool := is_alpha c || is_digit c.

(** *** [__init__]: the compiled patterns *)

(** [\b\d{10}\b] *)
Definition patterns_phone : regex := [WordB; exactly 10 is_digit; WordB].

(** [\b[2-9]\d{3}\s?\d{4}\s?\d{4}\b] *)
Definition patterns_aadhar : regex :=
  [WordB; one (in_range 50 57); exactly 3 is_digit; opt is_space;
   exactly 4 is_digit; opt is_space; exactly 4 is_digit; WordB].

(** [\b[A-Z]\d{7}\b] with [re.IGNORECASE]: below U+0100 the letters that
    match [[A-Z]] without regard to case are [A-Z] and [a-z]. *)
Definition patterns_passport : regex := [WordB; one is_alpha; exactly 7 is_digit; WordB].

(** [\b[a-zA-Z0-9.-]{2,256}@[a-zA-Z]{2,64}\b] *)
Definition upi_local (c : ascii) : bool := is_alnum c || char_in ".-" c.

Definition patterns_upi : regex :=
  [WordB; Rep upi_local 2 (Some 256); one (is_char "@");
   Rep is_alpha 2 (Some 64); WordB].

(** [\b[a-zA-Z0-9._%+-]+@[a-zA-Z0-9.-]+\.[a-zA-Z]{2,}\b] *)
Definition email_local (c : ascii) : bool := is_alnum c || char_in "._%+-" c.
Definition email_domain (c : ascii) : bool := is_alnum c || char_in ".-" c.

Definition patterns_email : regex :=
  [WordB; plus email_local; one (is_char "@"); plus email_domain;
   one (is_char "."); Rep is_alpha 2 None; WordB].

(** [\b\+91[-\s]?[789]\d{9}\b], [\b91[789]\d{9}\b], [\b[789]\d{9}\b] *)
Definition phone_variations : list regex :=
  [ [WordB; one (is_char "+"); one (is_char "9"); one (is_char "1");
     opt (fun c => is_char "-" c || is_space c); one (char_in "789");
     exactly 9 is_digit; WordB];
    [WordB; one (is_char "9"); one (is_char "1"); one (char_in "789");
     exactly 9 is_digit; WordB];
    [WordB; one (char_in "789"); exactly 9 is_digit; WordB] ].

(** [\b[A-Z][a-z]+\s+[A-Z][a-z]+\b] *)
Definition name_pattern : regex :=
  [WordB; one is_upper; plus is_lower; plus is_space; one is_upper;
   plus is_lower; WordB].

(** [^[2-9]\d{11}$], the pattern of the [re.match] in [is_aadhar_number] *)
Definition aadhar_whole : regex :=
  [Bos; one (in_range 50 57); exactly 11 is_digit; Eos].

(** *** The detectors *)

Definition is_empty {A : Type} (text : list A) : bool :=
  match text with
  | [] => true
  | _ => false
  end.

Definition is_phone_number (text : str) : bool :=
  if is_empty text then false
  else
    let str_text := strip text in
    (* re.sub(r'[-\s()]', '', str_text) *)
    let cleaned :=
      filter (fun c => negb (char_in "-()" c || is_space c)) str_text in
    if search patterns_phone cleaned then true
    else existsb (fun pattern => search pattern str_text) phone_variations.

Definition is_aadhar_number (text : str) : bool :=
  if is_empty text then false
  else
    let str_text := strip text in
    if search patterns_aadhar str_text then true
    else
      (* re.sub(r'\s', '', str_text) *)
      let cleaned := filter (fun c => negb (is_space c)) str_text in
      if rmatch aadhar_whole cleaned then true else false.

Definition is_passport_number (text : str) : bool :=
  if is_empty text then false else search patterns_passport (strip text).

Definition is_upi_id (text : str) : bool :=
  if is_empty text then false else search patterns_upi (strip text).

Definition is_email (text : str) : bool :=
  if is_empty text then false else search patterns_email (strip text).

Definition stoplist : list str :=
  map lit ["new"; "york"; "san"; "los"; "las"; "north"; "south"; "east"; "west"]%string.

(** The test of [extract_names] on one match. *)
Definition keep_name (m : str) : bool :=
  let words := split_ws m in
  (2 <=? length words)
  && negb (existsb (fun word => str_in (lower word) stoplist) words).

Definition extract_names (text : str) : list str :=
  if is_empty text then []
  else filter keep_name (findall name_pattern (strip text)).

(** *** [redact_text] *)

Definition Xs (n : nat) : str := repeat "X"%char n.

(** [m.group()[:2] + 'X' * (len(m.group()) - 4) + m.group()[-2:]] *)
Definition mask_phone_variation (m : str) : option str :=
  Some (firstn 2 m ++ Xs (length m - 4) ++ lastn 2 m).

(** [m.group()[:2] + 'X' * 6 + m.group()[-2:]] *)
Definition mask_phone (m : str) : option str :=
  Some (firstn 2 m ++ Xs 6 ++ lastn 2 m).

Definition redact_aadhar (aadhar : str) : option str :=
  if existsb (Ascii.eqb " ") aadhar
  then Some (lit "XXXX XXXX " ++ lastn 4 aadhar)
  else Some (lit "XXXXXXXX" ++ lastn 4 aadhar).

(** [m.group().split('@')[0][:3] + 'XXX@' + m.group().split('@')[1]] *)
Definition mask_upi (m : str) : option str :=
  do p0 <- nth_error (split_on "@" m) 0;
  do p1 <- nth_error (split_on "@" m) 1;
  Some (firstn 3 p0 ++ lit "XXX@" ++ p1).

Definition redact_email (email : str) : option str :=
  let parts := split_on "@" email in
  do p0 <- nth_error parts 0;
  if 3 <? length p0
  then do p1 <- nth_error parts 1; Some (firstn 3 p0 ++ lit "XXX@" ++ p1)
  else do p1 <- nth_error parts 1; Some (lit "XXX@" ++ p1).

(** The body of the loop over [names]:
    [parts[0][0] + 'XXX ' + parts[-1][0] + 'XXX' if len(parts) >= 2 else 'XXXX'] *)
Definition mask_name (name : str) : option str :=
  let parts := split_ws name in
  if 2 <=? length parts
  then
    do first <- nth_error parts 0;
    do f <- nth_error first 0;
    do last <- nth_error parts (length parts - 1);
    do l <- nth_error last 0;
    Some ([f] ++ lit "XXX " ++ [l] ++ lit "XXX")
  else Some (lit "XXXX").

Definition redact_names_step (acc : option str) (name : str) : option str :=
  do redacted <- acc;
  do masked <- mask_name name;
  Some (replace redacted name masked).

Definition redact_text (text : str) (entity_type : str) : option str :=
  if is_empty text then Some text
  else
    let redacted := strip text in
    if str_eqb entity_type (lit "phone") then
      do redacted <-
        fold_left (fun acc pattern =>
                     do redacted <- acc; sub pattern mask_phone_variation redacted)
                  phone_variations (Some redacted);
      sub patterns_phone mask_phone redacted
    else if str_eqb entity_type (lit "aadhar") then
      sub patterns_aadhar redact_aadhar redacted
    else if str_eqb entity_type (lit "passport") then
      sub patterns_passport (fun _ => Some (lit "[REDACTED_PASSPORT]")) redacted
    else if str_eqb entity_type (lit "upi") then
      sub patterns_upi mask_upi redacted
    else if str_eqb entity_type (lit "email") then
      sub patterns_email redact_email redacted
    else if str_eqb entity_type (lit "name") then
      fold_left redact_names_step (extract_names redacted) (Some redacted)
    else Some redacted.

(** *** Records *)

(** A scalar of a parsed record: [None], a string, an integer or a boolean. *)
Inductive value : Type :=
| VNone
| VStr (s : str)
| VInt (z : Z)
| VBool (b : bool).

(** [str(value)] *)
Definition py_str (v : value) : str :=
  match v with
  | VNone => lit "None"
  | VStr s => s
  | VInt z => lit (NilZero.string_of_int (Z.to_int z))
  | VBool true => lit "True"
  | VBool false => lit "False"
  end.

(** A [dict] with string keys, in insertion order. *)
Definition dict := list (str * value).

Fixpoint dict_get (d : dict) (k : str) : option value :=
  match d with
  | [] => None
  | (k', v) :: d' => if str_eqb k' k then Some v else dict_get d' k
  end.

(** [k in d] *)
Definition dict_has (d : dict) (k : str) : bool :=
  match dict_get d k with
  | Some _ => true
  | None => false
  end.

(** [d[k] = v]: a key already present keeps its place. *)
Fixpoint dict_set (d : dict) (k : str) (v : value) : dict :=
  match d with
  | [] => [(k, v)]
  | (k', v') :: d' =>
      if str_eqb k' k then (k', v) :: d' else (k', v') :: dict_set d' k v
  end.

Definition keys (d : dict) : list str := map fst d.

(** [combinatorial_elements]: the five lists of field keys. *)
Record buckets : Type := Buckets {
  b_name : list str;
  b_email : list str;
  b_address : list str;
  b_device_id : list str;
  b_ip_address : list str
}.

Definition no_elements : buckets := Buckets [] [] [] [] [].

(** [combinatorial_elements.items()] *)
Definition items (ce : buckets) : list (str * list str) :=
  [(lit "name", b_name ce); (lit "email", b_email ce);
   (lit "address", b_address ce); (lit "device_id", b_device_id ce);
   (lit "ip_address", b_ip_address ce)].

(** [combinatorial_elements[ty].append(key)] *)
Definition append_to (ce : buckets) (ty : str) (key : str) : buckets :=
  if str_eqb ty (lit "name") then
    Buckets (b_name ce ++ [key]) (b_email ce) (b_address ce) (b_device_id ce) (b_ip_address ce)
  else if str_eqb ty (lit "email") then
    Buckets (b_name ce) (b_email ce ++ [key]) (b_address ce) (b_device_id ce) (b_ip_address ce)
  else if str_eqb ty (lit "address") then
    Buckets (b_name ce) (b_email ce) (b_address ce ++ [key]) (b_device_id ce) (b_ip_address ce)
  else if str_eqb ty (lit "device_id") then
    Buckets (b_name ce) (b_email ce) (b_address ce) (b_device_id ce ++ [key]) (b_ip_address ce)
  else if str_eqb ty (lit "ip_address") then
    Buckets (b_name ce) (b_email ce) (b_address ce) (b_device_id ce) (b_ip_address ce ++ [key])
  else ce.

(** [str.upper] on one character of a bucket name (ASCII). *)
Definition upper_char (c : ascii) : ascii :=
  if is_lower c then ascii_of_nat (code c - 32) else c.

Definition upper (s : str) : str := map upper_char s.

(** *** [analyze_record] *)

Record state : Type := State {
  has_pii : bool;
  redacted_data : dict;
  combinatorial_elements : buckets
}.

(** [value is None or value == ''] *)
Definition none_or_empty (v : value) : bool :=
  match v with
  | VNone => true
  | VStr [] => true
  | _ => false
  end.

(** The chain of tests for the standalone categories: the new [has_pii] and
    [redacted_value]. *)
Definition standalone (key str_value : str) (has_pii : bool)
  : option (bool * str) :=
  if str_in key [lit "phone"; lit "contact"] || is_phone_number str_value then
    do r <- redact_text str_value (lit "phone"); Some (true, r)
  else if str_eqb key (lit "aadhar") || is_aadhar_number str_value then
    do r <- redact_text str_value (lit "aadhar"); Some (true, r)
  else if str_eqb key (lit "passport") || is_passport_number str_value then
    do r <- redact_text str_value (lit "passport"); Some (true, r)
  else if str_eqb key (lit "upi_id") || is_upi_id str_value then
    do r <- redact_text str_value (lit "upi"); Some (true, r)
  else Some (has_pii, str_value).

(** The chain of tests that collects the combinatorial elements. *)
Definition collect (data : dict) (key str_value : str) (ce : buckets) : buckets :=
  if str_eqb key (lit "name")
     || (str_in key [lit "first_name"; lit "last_name"]
         && negb (dict_has data (lit "name")))
  then
    if negb (is_empty (A:=str) (extract_names str_value))
       || str_in key [lit "first_name"; lit "last_name"]
    then append_to ce (lit "name") key
    else ce
  else if str_eqb key (lit "email") || is_email str_value then
    append_to ce (lit "email") key
  else if str_in key [lit "address"; lit "city"; lit "pin_code"; lit "state"] then
    append_to ce (lit "address") key
  else if str_in key [lit "device_id"; lit "ip_address"] then
    append_to ce key key
  else ce.

(** The body of the loop over [data.items()]. *)
Definition scan_field (data : dict) (st : state) (kv : str * value)
  : option state :=
  let (key, value) := kv in
  if none_or_empty value then
    Some (State (has_pii st) (dict_set (redacted_data st) key value)
                (combinatorial_elements st))
  else
    let str_value := strip (py_str value) in
    do hr <- standalone key str_value (has_pii st);
    let ce := collect data key str_value (combinatorial_elements st) in
    Some (State (fst hr) (dict_set (redacted_data st) key (VStr (snd hr))) ce).

Definition scan (data : dict) : option state :=
  fold_left (fun acc kv => do st <- acc; scan_field data st kv) data
            (Some (State false [] no_elements)).

(** The body of the loop over the fields of one bucket. *)
Definition redact_field (element_type : str) (acc : option dict) (field : str)
  : option dict :=
  do redacted_data <- acc;
  match dict_get redacted_data field with
  | None => Some redacted_data
  | Some v =>
      if str_eqb element_type (lit "name") then
        do r <- redact_text (py_str v) (lit "name");
        Some (dict_set redacted_data field (VStr r))
      else if str_eqb element_type (lit "email") then
        do r <- redact_text (py_str v) (lit "email");
        Some (dict_set redacted_data field (VStr r))
      else if str_in element_type [lit "device_id"; lit "ip_address"] then
        Some (dict_set redacted_data field
                (VStr (lit "[REDACTED_" ++ upper element_type ++ lit "]")))
      else Some redacted_data
  end.

(** [sum(1 for elements in combinatorial_elements.values() if elements)] *)
Definition combinatorial_count (ce : buckets) : nat :=
  length (filter (fun tf => negb (is_empty (snd tf))) (items ce)).

Definition analyze_record (data : dict) : option (bool * dict) :=
  do st <- scan data;
  if 2 <=? combinatorial_count (combinatorial_elements st) then
    do rd <-
      fold_left (fun acc tf => fold_left (redact_field (fst tf)) (snd tf) acc)
                (items (combinatorial_elements st)) (Some (redacted_data st));
    Some (true, rd)
  else Some (has_pii st, redacted_data st).

(** *** [process_csv]: the column that holds the record *)

(** ['json' in col.lower() or col.lower() in ['data_json', 'Data_json']] *)
Definition is_json_column (col : str) : bool :=
  contains (lit "json") (lower col)
  || str_in (lower col) [lit "data_json"; lit "Data_json"].

(** The loop over [row.keys()], left at the first column that passes the
    test.  A key is a column name, or [None]: the key under which
    [csv.DictReader] stores the cells of a row beyond the header, and on
    which [col.lower()] raises.  The result is [None] when the loop raises,
    and else the value of the variable [json_column] after the loop: the
    column, or Python's [None] if no column passes the test. *)
Fixpoint json_column (cols : list (option str)) : option (option str) :=
  match cols with
  | [] => Some None
  | None :: _ => None
  | Some col :: cols' =>
      if is_json_column col then Some (Some col) else json_column cols'
  end.

End PIIDetector.

Import PIIDetector.

(** * The vocabulary of the statements *)

(** ** Matches *)

(** What a match looks like: the runs of the repetitions, in order. *)
Fixpoint shape (r : regex) (m : str) : Prop :=
  match r with
  | [] => m = []
  | Rep cls lo _ :: r' =>
      exists a b, m = a ++ b /\ lo <= length a
                  /\ Forall (fun c => cls c = true) a /\ shape r' b
  | _ :: r' => shape r' m
  end.

(** A number of repetitions that the upper bound allows. *)
Definition within (hi : option nat) (n : nat) : Prop :=
  match hi with
  | Some h => n <= h
  | None => True
  end.

(** The same, with the upper bounds of the repetitions. *)
Fixpoint bounded_shape (r : regex) (m : str) : Prop :=
  match r with
  | [] => m = []
  | Rep cls lo hi :: r' =>
      exists a b, m = a ++ b /\ lo <= length a /\ within hi (length a)
                  /\ Forall (fun c => cls c = true) a /\ bounded_shape r' b
  | _ :: r' => bounded_shape r' m
  end.

(** The character before the position behind [a]. *)
Definition last_opt (prev : option ascii) (a : str) : option ascii :=
  fold_left (fun _ c => Some c) a prev.

(** An item that takes one character at least. *)
Definition mandatory (i : item) : bool :=
  match i with
  | Rep _ (S _) _ => true
  | _ => false
  end.

(** ** The scan of the fields

    The tests of [analyze_record], written as functions of one field: what
    [standalone] and [collect] compute, as the lemmas [standalone_spec] and
    [collect_spec] state. *)

(** The result of [redact_text], which always has one. *)
Definition mask (text entity_type : str) : str :=
  match redact_text text entity_type with
  | Some r => r
  | None => []
  end.

(** A standalone category fires on a field: by its key or by its value. *)
Definition phone_fires (key s : str) : bool :=
  str_in key [lit "phone"; lit "contact"] || is_phone_number s.
Definition aadhar_fires (key s : str) : bool :=
  str_eqb key (lit "aadhar") || is_aadhar_number s.
Definition passport_fires (key s : str) : bool :=
  str_eqb key (lit "passport") || is_passport_number s.
Definition upi_fires (key s : str) : bool :=
  str_eqb key (lit "upi_id") || is_upi_id s.

Definition fires (key s : str) : bool :=
  phone_fires key s || aadhar_fires key s || passport_fires key s
  || upi_fires key s.

(** The value of a field after the scan: masked with the first standalone
    category that fires, else the stripped string. *)
Definition scan_value (key s : str) : str :=
  if phone_fires key s then mask s (lit "phone")
  else if aadhar_fires key s then mask s (lit "aadhar")
  else if passport_fires key s then mask s (lit "passport")
  else if upi_fires key s then mask s (lit "upi")
  else s.

(** The bucket a field is collected into, if any. *)
Definition bucket_of (data : dict) (key s : str) : option str :=
  if str_eqb key (lit "name")
     || (str_in key [lit "first_name"; lit "last_name"]
         && negb (dict_has data (lit "name")))
  then
    if negb (is_empty (extract_names s))
       || str_in key [lit "first_name"; lit "last_name"]
    then Some (lit "name")
    else None
  else if str_eqb key (lit "email") || is_email s then Some (lit "email")
  else if str_in key [lit "address"; lit "city"; lit "pin_code"; lit "state"]
  then Some (lit "address")
  else if str_in key [lit "device_id"; lit "ip_address"] then Some key
  else None.

(** [key] appended to the bucket [ty], if there is one. *)
Definition add_to (ce : buckets) (ty : option str) (key : str) : buckets :=
  match ty with
  | Some t => append_to ce t key
  | None => ce
  end.

(** The names of the five buckets, in the order of [items]. *)
Definition bucket_names : list str :=
  [lit "name"; lit "email"; lit "address"; lit "device_id"; lit "ip_address"].

(** The bucket of a given name. *)
Definition bucket (ce : buckets) (ty : str) : list str :=
  if str_eqb ty (lit "name") then b_name ce
  else if str_eqb ty (lit "email") then b_email ce
  else if str_eqb ty (lit "address") then b_address ce
  else if str_eqb ty (lit "device_id") then b_device_id ce
  else if str_eqb ty (lit "ip_address") then b_ip_address ce
  else [].

(** The three results of the scan, field by field. *)
Definition field_fires (kv : str * value) : bool :=
  negb (none_or_empty (snd kv)) && fires (fst kv) (strip (py_str (snd kv))).

Definition scan_entry (kv : str * value) : value :=
  if none_or_empty (snd kv) then snd kv
  else VStr (scan_value (fst kv) (strip (py_str (snd kv)))).

Definition field_bucket (data : dict) (kv : str * value) : option str :=
  if none_or_empty (snd kv) then None
  else bucket_of data (fst kv) (strip (py_str (snd kv))).

Definition in_bucket (data : dict) (ty : str) (kv : str * value) : bool :=
  match field_bucket data kv with
  | Some t => str_eqb t ty
  | None => false
  end.

(** The keys of the fields of [l] collected into the bucket [ty]. *)
Definition members (data : dict) (ty : str) (l : dict) : list str :=
  map fst (filter (in_bucket data ty) l).

(** One step of the first loop. *)
Definition scan_step (data : dict) (acc : option state) (kv : str * value)
  : option state :=
  do st <- acc; scan_field data st kv.

(** ** The redaction of the buckets *)

(** The sentinel of the bucket [ty]. *)
Definition sentinel (ty : str) : str := lit "[REDACTED_" ++ upper ty ++ lit "]".

(** What the second loop writes for a field of the bucket [ty] that holds
    [v]. *)
Definition upd (ty : str) (v : value) : value :=
  if str_eqb ty (lit "name") then VStr (mask (py_str v) (lit "name"))
  else if str_eqb ty (lit "email") then VStr (mask (py_str v) (lit "email"))
  else if str_in ty [lit "device_id"; lit "ip_address"] then VStr (sentinel ty)
  else v.

(** One pass of the second loop over the fields of one bucket. *)
Definition redact_bucket (ty : str) (fields : list str) (kv : str * value)
  : str * value :=
  if str_in (fst kv) fields then (fst kv, upd ty (snd kv)) else kv.

(** The number of buckets that are not empty after the scan. *)
Definition count (data : dict) : nat :=
  length (filter (fun ty => negb (is_empty (members data ty data))) bucket_names).

(** The verdict: a standalone category fires on a field, or two buckets are
    not empty. *)
Definition verdict (data : dict) : bool :=
  existsb field_fires data || (2 <=? count data).

(** The value of a field once its bucket has been redacted. *)
Definition final (data : dict) (kv : str * value) : value :=
  match field_bucket data kv with
  | Some ty => upd ty (scan_entry kv)
  | None => scan_entry kv
  end.

(** The redacted record. *)
Definition redacted (data : dict) : dict :=
  map (fun kv => (fst kv, if 2 <=? count data then final data kv else scan_entry kv))
      data.

(** ** Values of a given form *)

(** [n] decimal digits. *)
Definition digits (n : nat) (l : str) : Prop :=
  length l = n /\ Forall (fun c => is_digit c = true) l.

(** Nothing, or one space: the optional separator of the pattern, as the
    character [redact_aadhar] looks for. *)
Definition blank_or_none (s : str) : Prop := s = [] \/ s = lit " ".

(** A word of the shape [[A-Z][a-z]+]. *)
Definition capitalized (w : str) : Prop :=
  exists c t, w = c :: t /\ is_upper c = true /\ t <> []
              /\ Forall (fun x => is_lower x = true) t.

(** A non-empty run of whitespace. *)
Definition spaces (sp : str) : Prop :=
  sp <> [] /\ Forall (fun x => is_space x = true) sp.

(** [[A-Z][a-z]+], as a test. *)
Definition is_capitalized (w : str) : bool :=
  match w with
  | c :: t => is_upper c && negb (is_empty t) && forallb is_lower t
  | [] => false
  end.

Definition is_blank (sp : str) : bool :=
  negb (is_empty sp) && forallb is_space sp.

(** A value [l@h.t]: a local part [l] that begins with a word character, a
    domain [h] and a top-level label [t] of two letters or more. *)
Record email_shape (l h t : str) : Prop := {
  local_head : exists c l', l = c :: l' /\ is_word c = true;
  local_class : Forall (fun c => email_local c = true) l;
  domain_some : h <> [];
  domain_class : Forall (fun c => email_domain c = true) h;
  tld_two : 2 <= length t;
  tld_class : Forall (fun c => is_alpha c = true) t
}.

Definition email_of (l h t : str) : str := l ++ lit "@" ++ h ++ lit "." ++ t.

(** [l@h.t] with the classes of the e-mail pattern, as a test; the local part
    begins with a letter, a digit or an underscore, where a match can
    begin. *)
Definition is_email_shape (l h t : str) : bool :=
  match l with
  | c :: _ => is_word c
  | [] => false
  end
  && forallb email_local l
  && negb (is_empty h) && forallb email_domain h
  && (2 <=? length t) && forallb is_alpha t.

(** ** Widths and runs *)

(** The least number of characters a match of [r] has. *)
Fixpoint min_len (r : regex) : nat :=
  match r with
  | [] => 0
  | Rep _ lo _ :: r' => lo + min_len r'
  | _ :: r' => min_len r'
  end.

(** The greatest number, when every repetition is bounded. *)
Fixpoint max_len (r : regex) : option nat :=
  match r with
  | [] => Some 0
  | Rep _ _ hi :: r' =>
      match hi, max_len r' with
      | Some h, Some m => Some (h + m)
      | _, _ => None
      end
  | _ :: r' => max_len r'
  end.

(** [s] holds [n] digits in a row. *)
Fixpoint digit_run (n : nat) (s : str) : bool :=
  (n <=? prefix_len is_digit s)
  || match s with
     | [] => false
     | _ :: s' => digit_run n s'
     end.

(** The entity types whose detector and mask use the same pattern, each with
    its detector. *)
Definition pattern_detectors : list (str * (str -> bool)) :=
  [(lit "aadhar", is_aadhar_number); (lit "passport", is_passport_number);
   (lit "upi", is_upi_id); (lit "email", is_email)].

(** A value [l@h] of the payment-handle pattern, as a test: a local part of
    2 to 256 characters that begins with a letter or a digit, and a handle
    of 2 to 64 letters. *)
Definition is_upi_shape (l h : str) : bool :=
  match l with
  | c :: _ => is_word c
  | [] => false
  end
  && forallb upi_local l && (2 <=? length l) && (length l <=? 256)
  && forallb is_alpha h && (2 <=? length h) && (length h <=? 64).

(** The value of a field that no mask touches. *)
Definition plain (v : value) : value :=
  if none_or_empty v then v else VStr (strip (py_str v)).

(** ** Records of the examples *)

(** A field with a string value, for the examples. *)
Definition field (k v : string) : str * value := (lit k, VStr (lit v)).

(** Distinct keys, as a test. *)
Fixpoint distinct (ks : list str) : bool :=
  match ks with
  | [] => true
  | k :: ks' => negb (str_in k ks') && distinct ks'
  end.

Definition city_and_email : dict := [field "city" "Mumbai"; field "email" "ab@x.com"].

Definition email_alone : dict := [field "email" "rahul@gmail.com"].

Definition note_and_age : dict :=
  [(lit "note", VStr (lit "  hi  ")); (lit "age", VInt 42)].

Definition blank_record : dict := [(lit "phone", VStr []); (lit "name", VNone)].

Definition address_with_email : dict :=
  [field "address" "rahul@x.com"; field "city" "Pune"; field "device_id" "d-17"].

(** * Properties *)

(** ** Strings *)

Lemma str_eqb_refl (a : str) : str_eqb a a = true.
Proof.
  induction a as [|x a IH]; simpl; [reflexivity|].
  now rewrite Ascii.eqb_refl, IH.
Qed.

Lemma str_eqb_eq (a b : str) : str_eqb a b = true <-> a = b.
Proof.
  split; [|intros ->; apply str_eqb_refl].
  revert b; induction a as [|x a IH]; intros [|y b]; simpl; try easy.
  rewrite andb_true_iff, Ascii.eqb_eq. intros [-> H]. now rewrite (IH _ H).
Qed.

Lemma str_eqb_neq (a b : str) : str_eqb a b = false <-> a <> b.
Proof.
  rewrite <- str_eqb_eq. destruct (str_eqb a b); split; congruence.
Qed.

Lemma str_eqb_sym (a b : str) : str_eqb a b = str_eqb b a.
Proof.
  destruct (str_eqb a b) eqn:E.
  - apply str_eqb_eq in E. subst. symmetry. apply str_eqb_refl.
  - destruct (str_eqb b a) eqn:E'; [|reflexivity].
    apply str_eqb_eq in E'. subst. now rewrite str_eqb_refl in E.
Qed.

Lemma str_in_In (x : str) (xs : list str) : str_in x xs = true <-> In x xs.
Proof.
  unfold str_in. rewrite existsb_exists. split.
  - intros (y & Hy & E). apply str_eqb_eq in E. now subst.
  - intros H. exists x. split; [assumption | apply str_eqb_refl].
Qed.

Lemma str_in_not_In (x : str) (xs : list str) : str_in x xs = false <-> ~ In x xs.
Proof.
  rewrite <- str_in_In. destruct (str_in x xs); split; congruence.
Qed.

Lemma is_empty_false {A : Type} (l : list A) : is_empty l = false <-> l <> [].
Proof. destruct l; simpl; split; congruence. Qed.

Lemma forallb_Forall {A : Type} (p : A -> bool) (l : list A) :
  forallb p l = true <-> Forall (fun x => p x = true) l.
Proof. rewrite forallb_forall, Forall_forall. reflexivity. Qed.

(** Every word of [str.split()] has a first character. *)
Lemma split_ws_from_nonempty (s cur : str) :
  Forall (fun w => w <> []) (split_ws_from cur s).
Proof.
  revert cur; induction s as [|c s IH]; intros cur; simpl.
  - destruct cur; constructor; [congruence | constructor].
  - destruct (is_space c).
    + destruct cur; [apply IH | constructor; [congruence | apply IH]].
    + apply IH.
Qed.

Lemma split_ws_nonempty (s : str) : Forall (fun w => w <> []) (split_ws s).
Proof. apply split_ws_from_nonempty. Qed.

Lemma split_on_cons (sep : ascii) (s : str) :
  exists p ps, split_on sep s = p :: ps.
Proof.
  induction s as [|c s (p & ps & E)]; simpl; [now eexists; eexists|].
  destruct (Ascii.eqb c sep); [now eexists; eexists|].
  rewrite E. now eexists; eexists.
Qed.

(** A string that holds the separator splits into two parts at least. *)
Lemma split_on_two (sep : ascii) (s : str) :
  In sep s -> exists p q ps, split_on sep s = p :: q :: ps.
Proof.
  induction s as [|c s IH]; simpl; [easy|]. intros H.
  destruct (Ascii.eqb c sep) eqn:E.
  - destruct (split_on_cons sep s) as (p & ps & ->). now exists [], p, ps.
  - destruct H as [->|H]; [now rewrite Ascii.eqb_refl in E|].
    destruct (IH H) as (p & q & ps & ->). now exists (c :: p), q, ps.
Qed.

Lemma split_on_none (sep : ascii) (s : str) :
  ~ In sep s -> split_on sep s = [s].
Proof.
  induction s as [|c s IH]; simpl; [reflexivity|]. intros H.
  destruct (Ascii.eqb c sep) eqn:E.
  - apply Ascii.eqb_eq in E. subst. tauto.
  - rewrite IH by tauto. reflexivity.
Qed.

(** The first part ends at the first separator. *)
Lemma split_on_app (sep : ascii) (l d : str) :
  ~ In sep l -> split_on sep (l ++ sep :: d) = l :: split_on sep d.
Proof.
  induction l as [|c l IH]; simpl; intros H.
  - now rewrite Ascii.eqb_refl.
  - destruct (Ascii.eqb c sep) eqn:E.
    + apply Ascii.eqb_eq in E. subst. tauto.
    + rewrite IH by tauto. reflexivity.
Qed.

Lemma replace_nonempty (s old new : str) :
  s <> [] -> new <> [] -> replace s old new <> [].
Proof.
  intros Hs Hn. unfold replace. destruct old as [|o old].
  - intros H. apply app_eq_nil in H. tauto.
  - destruct s as [|c s]; [congruence|].
    change (replace_from (o :: old) new 0 (c :: s))
      with (if is_prefix (o :: old) (c :: s)
            then new ++ replace_from (o :: old) new (length (o :: old) - 1) s
            else c :: replace_from (o :: old) new 0 s).
    destruct (is_prefix (o :: old) (c :: s)); [|easy].
    intros H. apply app_eq_nil in H. tauto.
Qed.

(** ** The matcher *)

Lemma firstn_plus {A : Type} (k m : nat) (s : list A) :
  firstn (k + m) s = firstn k s ++ firstn m (skipn k s).
Proof.
  revert s; induction k as [|k IH]; intros s; [reflexivity|].
  destruct s as [|c s]; simpl; [now destruct m | now rewrite IH].
Qed.

Lemma try_down_some (f : nat -> option nat) (lo n t : nat) :
  try_down f lo n = Some t ->
  exists k m, lo <= k /\ k <= n /\ f k = Some m /\ t = k + m.
Proof.
  induction n as [|n IH]; simpl.
  - destruct lo; simpl; [|discriminate].
    destruct (f 0) as [m|] eqn:E; [|discriminate].
    intros [= <-]. exists 0, m. repeat split; auto.
  - destruct (S n <? lo) eqn:L; [discriminate|].
    apply Nat.ltb_ge in L.
    destruct (f (S n)) as [m|] eqn:E.
    + intros [= <-]. exists (S n), m. repeat split; auto.
    + intros H. destruct (IH H) as (k & m & ? & ? & ? & ?).
      exists k, m. repeat split; auto.
Qed.

(** The highest count at which the continuation succeeds is the one taken. *)
Lemma try_down_first (f : nat -> option nat) (lo n k m : nat) :
  lo <= k -> k <= n -> f k = Some m ->
  (forall j, k < j -> j <= n -> f j = None) ->
  try_down f lo n = Some (k + m).
Proof.
  intros Hlo Hk Hf. induction n as [|n IH]; intros Hnone.
  - assert (k = 0) by lia. subst. simpl.
    replace (0 <? lo) with false by (symmetry; apply Nat.ltb_ge; lia).
    now rewrite Hf.
  - simpl try_down.
    replace (S n <? lo) with false by (symmetry; apply Nat.ltb_ge; lia).
    destruct (Nat.eq_dec k (S n)) as [->|Hne].
    + now rewrite Hf.
    + rewrite Hnone by lia. apply IH; [lia|]. intros j ? ?. apply Hnone; lia.
Qed.

Lemma try_down_none (f : nat -> option nat) (lo n : nat) :
  (forall j, lo <= j -> j <= n -> f j = None) -> try_down f lo n = None.
Proof.
  induction n as [|n IH]; intros H; simpl.
  - destruct (0 <? lo) eqn:L; [reflexivity|]. apply Nat.ltb_ge in L.
    rewrite H; [reflexivity | lia | lia].
  - destruct (S n <? lo) eqn:L; [reflexivity|]. apply Nat.ltb_ge in L.
    rewrite H by lia. apply IH. intros j ? ?. apply H; lia.
Qed.

Lemma prefix_len_le (cls : ascii -> bool) (s : str) :
  prefix_len cls s <= length s.
Proof.
  induction s as [|c s IH]; simpl; [lia|]. destruct (cls c); simpl; lia.
Qed.

Lemma prefix_len_firstn (cls : ascii -> bool) (s : str) (k : nat) :
  k <= prefix_len cls s -> Forall (fun c => cls c = true) (firstn k s).
Proof.
  revert k; induction s as [|c s IH]; intros k H; simpl in *.
  - now rewrite firstn_nil.
  - destruct k as [|k]; [constructor|]. simpl. destruct (cls c) eqn:E; [|lia].
    constructor; [assumption | apply IH; lia].
Qed.

Lemma prefix_len_cap (cls : ascii -> bool) (hi : option nat) (s : str) :
  prefix_len cls (cap hi s) <= prefix_len cls s.
Proof.
  destruct hi as [h|]; simpl; [|lia].
  revert h; induction s as [|c s IH]; intros h.
  - now rewrite firstn_nil.
  - destruct h as [|h]; simpl; [lia|]. destruct (cls c); [|lia].
    specialize (IH h). lia.
Qed.

(** The prefix of a run of [cls] followed by a character outside it. *)
Lemma prefix_len_app (cls : ascii -> bool) (a rest : str) :
  Forall (fun c => cls c = true) a ->
  prefix_len cls (a ++ rest) = length a + prefix_len cls rest.
Proof.
  induction 1 as [|c a Hc _ IH]; simpl; [reflexivity|]. now rewrite Hc, IH.
Qed.

Lemma match_here_shape (r : regex) :
  forall prev s n, match_here r prev s = Some n ->
                   n <= length s /\ shape r (firstn n s).
Proof.
  induction r as [|i r IH]; intros prev s n; simpl.
  - intros [= <-]. split; [lia | reflexivity].
  - destruct i as [cls lo hi | | |].
    + intros H. apply try_down_some in H.
      destruct H as (k & m & Hlo & Hk & Hm & ->).
      apply IH in Hm. destruct Hm as [Hlen Hsh].
      pose proof (prefix_len_cap cls hi s) as Hc.
      pose proof (prefix_len_le cls s) as Hl.
      rewrite length_skipn in Hlen. split; [lia|].
      exists (firstn k s), (firstn m (skipn k s)). repeat split.
      * apply firstn_plus.
      * rewrite length_firstn. lia.
      * apply prefix_len_firstn. lia.
      * assumption.
    + destruct (at_boundary prev s); [apply IH | discriminate].
    + destruct prev; [discriminate | apply IH].
    + destruct (at_end s); [apply IH | discriminate].
Qed.

(** ** [sub] *)

Section Sub.

Variable r : regex.
Variable repl : str -> option str.

(** [sub] raises only if [repl] does, on a match. *)
Lemma sub_from_total :
  (forall prev s n, match_here r prev s = Some n -> repl (firstn n s) <> None) ->
  forall s skip prev, sub_from r repl skip prev s <> None.
Proof.
  intros Hrepl. induction s as [|c s IH]; intros skip prev.
  - destruct skip; simpl; [|discriminate].
    destruct (match_here r prev []) as [n|] eqn:E; [|discriminate].
    specialize (Hrepl _ _ _ E). destruct (repl (firstn n [])); congruence.
  - destruct skip as [|k]; simpl; [|apply IH].
    destruct (match_here r prev (c :: s)) as [n|] eqn:E.
    + specialize (Hrepl _ _ _ E).
      destruct (repl (firstn n (c :: s))); [|congruence].
      specialize (IH (n - 1) (Some c)).
      destruct (sub_from r repl (n - 1) (Some c) s); congruence.
    + specialize (IH 0 (Some c)).
      destruct (sub_from r repl 0 (Some c) s); congruence.
Qed.

(** A replacement that never yields the empty string for a non-empty match
    leaves no non-empty string empty. *)
Lemma sub_nonempty (s out : str) :
  (forall m o, m <> [] -> repl m = Some o -> o <> []) ->
  s <> [] -> sub r repl s = Some out -> out <> [].
Proof.
  intros Hrepl Hs. destruct s as [|c s]; [congruence|]. clear Hs.
  unfold sub. simpl.
  destruct (match_here r None (c :: s)) as [n|] eqn:E.
  - destruct (repl (firstn n (c :: s))) as [o|] eqn:R; [|discriminate].
    destruct (sub_from r repl (n - 1) (Some c) s) as [rest|]; [|discriminate].
    intros [= <-]. destruct n as [|n]; simpl.
    + intros H. apply app_eq_nil in H. destruct H as [_ H]. discriminate.
    + assert (o <> []) by (apply (Hrepl (firstn (S n) (c :: s))); [easy | exact R]).
      intros H'. apply app_eq_nil in H'. tauto.
  - destruct (sub_from r repl 0 (Some c) s); [|discriminate].
    intros [= <-]. discriminate.
Qed.

(** Skipped characters are dropped. *)
Lemma sub_from_skip (a rest : str) (prev : option ascii) :
  a <> [] ->
  sub_from r repl (length a) prev (a ++ rest)
  = sub_from r repl 0 (Some (last a "000"%char)) rest.
Proof.
  revert prev; induction a as [|c a IH]; intros prev H; [congruence|].
  destruct a as [|c' a]; [reflexivity|].
  change (sub_from r repl (length (c :: c' :: a)) prev ((c :: c' :: a) ++ rest))
    with (sub_from r repl (length (c' :: a)) (Some c) ((c' :: a) ++ rest)).
  rewrite IH by congruence. reflexivity.
Qed.

(** A match that starts the string is replaced, and the scan goes on behind
    it. *)
Lemma sub_match_head (m rest out : str) :
  m <> [] -> match_here r None (m ++ rest) = Some (length m) ->
  repl m = Some out ->
  sub r repl (m ++ rest)
  = do tl <- sub_from r repl 0 (Some (last m "000"%char)) rest; Some (out ++ tl).
Proof.
  intros Hm Hmatch Hrepl. unfold sub.
  destruct m as [|c m]; [congruence|].
  change ((c :: m) ++ rest) with (c :: (m ++ rest)) in *.
  cbn [sub_from]. rewrite Hmatch.
  change (c :: (m ++ rest)) with ((c :: m) ++ rest).
  rewrite firstn_app, Nat.sub_diag, firstn_all, firstn_O, app_nil_r, Hrepl.
  cbn [length]. rewrite Nat.sub_succ, Nat.sub_0_r.
  destruct m as [|c' m].
  - cbn [length app last]. destruct (sub_from r repl 0 (Some c) rest); reflexivity.
  - rewrite sub_from_skip by congruence.
    change (last (c :: c' :: m) "000"%char) with (last (c' :: m) "000"%char).
    destruct (sub_from r repl 0 (Some (last (c' :: m) "000"%char)) rest); reflexivity.
Qed.

End Sub.

(** ** [redact_text] never raises *)

Lemma is_char_eq (x c : ascii) : is_char x c = true -> c = x.
Proof. apply Ascii.eqb_eq. Qed.

(** A match of the payment-handle pattern holds an [@]. *)
Lemma upi_match_has_at (prev : option ascii) (s : str) (n : nat) :
  match_here patterns_upi prev s = Some n -> In "@"%char (firstn n s).
Proof.
  intros H. apply match_here_shape in H. destruct H as [_ H].
  cbn [shape patterns_upi one] in H.
  destruct H as (a & b & -> & _ & _ & a' & b' & -> & Hlen & Hat & _).
  destruct a' as [|c a']; [simpl in Hlen; lia|].
  inversion Hat as [|? ? Hc _]; subst. apply is_char_eq in Hc. subst.
  apply in_or_app. right. now left.
Qed.

(** So does a match of the e-mail pattern. *)
Lemma email_match_has_at (prev : option ascii) (s : str) (n : nat) :
  match_here patterns_email prev s = Some n -> In "@"%char (firstn n s).
Proof.
  intros H. apply match_here_shape in H. destruct H as [_ H].
  cbn [shape patterns_email one plus] in H.
  destruct H as (a & b & -> & _ & _ & a' & b' & -> & Hlen & Hat & _).
  destruct a' as [|c a']; [simpl in Hlen; lia|].
  inversion Hat as [|? ? Hc _]; subst. apply is_char_eq in Hc. subst.
  apply in_or_app. right. now left.
Qed.

Lemma mask_upi_total (m : str) : In "@"%char m -> mask_upi m <> None.
Proof.
  intros H. unfold mask_upi.
  destruct (split_on_two _ _ H) as (p & q & ps & ->). discriminate.
Qed.

Lemma redact_email_total (m : str) : In "@"%char m -> redact_email m <> None.
Proof.
  intros H. unfold redact_email.
  destruct (split_on_two _ _ H) as (p & q & ps & ->). simpl.
  destruct (3 <? length p); discriminate.
Qed.

Lemma nth_error_head_some {A : Type} (l : list A) :
  l <> [] -> exists x, nth_error l 0 = Some x.
Proof. destruct l as [|x l]; [congruence | now exists x]. Qed.

Lemma mask_name_some (name : str) :
  exists masked, mask_name name = Some masked /\ masked <> [].
Proof.
  unfold mask_name. pose proof (split_ws_nonempty name) as Hne.
  destruct (2 <=? length (split_ws name)) eqn:L.
  - apply Nat.leb_le in L. set (parts := split_ws name) in *.
    destruct (nth_error parts 0) as [first|] eqn:E0;
      [|apply nth_error_None in E0; lia].
    destruct (nth_error parts (length parts - 1)) as [last|] eqn:E1;
      [|apply nth_error_None in E1; lia].
    apply nth_error_In in E0, E1. rewrite Forall_forall in Hne.
    cbn [bind]. destruct (nth_error_head_some (Hne _ E0)) as (f & ->).
    cbn [bind]. destruct (nth_error_head_some (Hne _ E1)) as (l & ->).
    cbn [bind]. eexists. split; [reflexivity | discriminate].
  - eexists. split; [reflexivity | discriminate].
Qed.

Lemma fold_left_bind_none {A B : Type} (f : A -> B -> option A) (l : list B) :
  fold_left (fun acc x => do a <- acc; f a x) l None = None.
Proof. induction l as [|x l IH]; simpl; auto. Qed.

Lemma redact_names_total (names : list str) (acc : str) :
  fold_left redact_names_step names (Some acc) <> None.
Proof.
  revert acc; induction names as [|name names IH]; intros acc; simpl.
  - discriminate.
  - destruct (mask_name_some name) as (masked & -> & _). cbn [bind]. apply IH.
Qed.

Lemma redact_names_nonempty (names : list str) (acc out : str) :
  acc <> [] -> fold_left redact_names_step names (Some acc) = Some out ->
  out <> [].
Proof.
  revert acc; induction names as [|name names IH]; intros acc Hacc; simpl.
  - congruence.
  - destruct (mask_name_some name) as (masked & -> & Hm). cbn [bind].
    apply IH. now apply replace_nonempty.
Qed.

Lemma phone_variations_total (l : list regex) (acc : str) :
  fold_left (fun acc pattern =>
               do redacted <- acc; sub pattern mask_phone_variation redacted)
            l (Some acc) <> None.
Proof.
  revert acc; induction l as [|p l IH]; intros acc; simpl; [discriminate|].
  destruct (sub p mask_phone_variation acc) as [x|] eqn:E; [apply IH|].
  exfalso. revert E. apply sub_from_total. discriminate.
Qed.

Lemma mask_phone_variation_nonempty (m o : str) :
  m <> [] -> mask_phone_variation m = Some o -> o <> [].
Proof.
  intros Hm [= <-]. destruct m as [|c [|c' m]]; [congruence|easy|easy].
Qed.

Lemma phone_variations_nonempty (l : list regex) (acc out : str) :
  acc <> [] ->
  fold_left (fun acc pattern =>
               do redacted <- acc; sub pattern mask_phone_variation redacted)
            l (Some acc) = Some out ->
  out <> [].
Proof.
  revert acc; induction l as [|p l IH]; intros acc Hacc; simpl; [congruence|].
  destruct (sub p mask_phone_variation acc) as [x|] eqn:E.
  - apply IH. revert E. apply sub_nonempty; [|assumption].
    apply mask_phone_variation_nonempty.
  - now rewrite fold_left_bind_none.
Qed.

Lemma redact_text_total (text entity_type : str) :
  redact_text text entity_type <> None.
Proof.
  unfold redact_text. destruct (is_empty text); [discriminate|].
  repeat match goal with
         | |- (if ?b then _ else _) <> None => destruct b
         end.
  - destruct (fold_left _ phone_variations _) as [x|] eqn:E.
    + apply sub_from_total. discriminate.
    + exfalso. revert E. apply phone_variations_total.
  - apply sub_from_total. intros prev s n _. unfold redact_aadhar.
    destruct (existsb _ _); discriminate.
  - apply sub_from_total. discriminate.
  - apply sub_from_total. intros prev s n H.
    apply mask_upi_total. eapply upi_match_has_at, H.
  - apply sub_from_total. intros prev s n H.
    apply redact_email_total. eapply email_match_has_at, H.
  - apply redact_names_total.
  - discriminate.
Qed.

Lemma redact_text_mask (text entity_type : str) :
  redact_text text entity_type = Some (mask text entity_type).
Proof.
  unfold mask. pose proof (redact_text_total text entity_type).
  destruct (redact_text text entity_type); congruence.
Qed.

(** A value with a character that is not whitespace is never masked to the
    empty string. *)
Lemma redact_text_nonempty (text entity_type out : str) :
  strip text <> [] -> redact_text text entity_type = Some out -> out <> [].
Proof.
  intros Hs. unfold redact_text. destruct (is_empty text) eqn:Et.
  { destruct text; [now elim Hs | discriminate]. }
  repeat match goal with
         | |- (if ?b then _ else _) = _ -> _ => destruct b
         end.
  - destruct (fold_left _ phone_variations _) as [x|] eqn:E; [|discriminate].
    cbn [bind]. apply sub_nonempty.
    + intros m o _ [= <-]. destruct m as [|c [|c' m]]; easy.
    + eapply phone_variations_nonempty; eassumption.
  - apply sub_nonempty; [|assumption]. intros m o _. unfold redact_aadhar.
    destruct (existsb _ _); intros [= <-]; easy.
  - apply sub_nonempty; [|assumption]. intros m o _ [= <-]. easy.
  - apply sub_nonempty; [|assumption]. intros m o _. unfold mask_upi.
    destruct (nth_error _ 0) as [p0|]; [|discriminate].
    destruct (nth_error _ 1) as [p1|]; [|discriminate].
    intros [= <-]. intros H. apply app_eq_nil in H. destruct H as [_ H].
    discriminate.
  - apply sub_nonempty; [|assumption]. intros m o _. unfold redact_email.
    destruct (nth_error _ 0) as [p0|]; [|discriminate]. cbn [bind].
    destruct (nth_error _ 1) as [p1|]; [|destruct (3 <? _); discriminate].
    destruct (3 <? _); intros [= <-]; [|easy].
    intros H. apply app_eq_nil in H. destruct H as [_ H]. discriminate.
  - apply redact_names_nonempty. assumption.
  - congruence.
Qed.

(** ** Dictionaries *)

Lemma dict_get_NoDup (d : dict) (k : str) (v : value) :
  NoDup (keys d) -> In (k, v) d -> dict_get d k = Some v.
Proof.
  induction d as [|[k' v'] d IH]; simpl; [easy|].
  intros Hnd [H|H]; inversion Hnd as [|? ? Hk Hd]; subst.
  - injection H as -> ->. now rewrite str_eqb_refl.
  - destruct (str_eqb k' k) eqn:E; [|now apply IH].
    apply str_eqb_eq in E. subst. elim Hk.
    change k with (fst (k, v)). now apply in_map.
Qed.

Lemma dict_set_fresh (d : dict) (k : str) (v : value) :
  ~ In k (keys d) -> dict_set d k v = d ++ [(k, v)].
Proof.
  induction d as [|[k' v'] d IH]; simpl; [reflexivity|]. intros H.
  destruct (str_eqb k' k) eqn:E.
  - apply str_eqb_eq in E. tauto.
  - rewrite IH by tauto. reflexivity.
Qed.

(** Under distinct keys, an update in place is a [map]. *)
Lemma dict_update_map (g : value -> value) (d : dict) (k : str) :
  NoDup (keys d) ->
  match dict_get d k with
  | Some v => dict_set d k (g v)
  | None => d
  end
  = map (fun kv => if str_eqb (fst kv) k then (fst kv, g (snd kv)) else kv) d.
Proof.
  induction d as [|[k' v'] d IH]; simpl; [reflexivity|].
  intros Hnd. inversion Hnd as [|? ? Hk Hd]; subst.
  destruct (str_eqb k' k) eqn:E.
  - f_equal. apply str_eqb_eq in E. subst.
    rewrite <- (map_id d) at 1. apply map_ext_in. intros [k1 v1] Hin. simpl.
    destruct (str_eqb k1 k) eqn:E1; [|reflexivity].
    apply str_eqb_eq in E1. subst. elim Hk.
    change k with (fst (k, v1)). now apply in_map.
  - specialize (IH Hd). destruct (dict_get d k); rewrite <- IH; reflexivity.
Qed.

(** Writing the fields of a record one after the other into an empty
    [dict]. *)
Lemma fold_dict_set (f : str * value -> value) (l : dict) :
  forall d, NoDup (keys d ++ keys l) ->
  fold_left (fun d kv => dict_set d (fst kv) (f kv)) l d
  = d ++ map (fun kv => (fst kv, f kv)) l.
Proof.
  induction l as [|[k v] l IH]; intros d Hnd; simpl.
  - now rewrite app_nil_r.
  - simpl in Hnd. rewrite dict_set_fresh.
    + rewrite IH.
      * now rewrite <- app_assoc.
      * unfold keys. rewrite map_app. simpl. rewrite <- app_assoc. exact Hnd.
    + apply NoDup_remove_2 in Hnd. intros Hin. apply Hnd.
      apply in_or_app. now left.
Qed.

Lemma keys_map_snd (g : str * value -> value) (d : dict) :
  keys (map (fun kv => (fst kv, g kv)) d) = keys d.
Proof. unfold keys. rewrite map_map. reflexivity. Qed.

(** Dropping fields keeps the keys distinct. *)
Lemma filter_keys_NoDup (keep : str * value -> bool) (d : dict) :
  NoDup (keys d) -> NoDup (keys (filter keep d)).
Proof.
  unfold keys. induction d as [|kv d IH]; cbn [filter map]; intros Hnd.
  - constructor.
  - apply NoDup_cons_iff in Hnd. destruct Hnd as [Hfresh Hrest].
    destruct (keep kv); cbn [map]; [|now apply IH].
    apply NoDup_cons; [|now apply IH].
    rewrite in_map_iff. intros (kv' & Hkey & Hin).
    apply filter_In in Hin. apply Hfresh. rewrite <- Hkey.
    now apply in_map.
Qed.

(** ** The scan of the fields *)

Lemma standalone_spec (key s : str) (h : bool) :
  standalone key s h = Some (h || fires key s, scan_value key s).
Proof.
  unfold standalone, fires, scan_value.
  fold (phone_fires key s) (aadhar_fires key s) (passport_fires key s)
       (upi_fires key s).
  rewrite !redact_text_mask. cbn [bind].
  destruct (phone_fires key s); [now rewrite orb_true_r|].
  destruct (aadhar_fires key s); [now rewrite orb_true_r|].
  destruct (passport_fires key s); [now rewrite orb_true_r|].
  destruct (upi_fires key s); [now rewrite orb_true_r|].
  now rewrite orb_false_r.
Qed.

Lemma collect_spec (data : dict) (key s : str) (ce : buckets) :
  collect data key s ce = add_to ce (bucket_of data key s) key.
Proof.
  unfold collect, bucket_of.
  repeat match goal with
         | |- context [if ?b then _ else _] => destruct b
         end; reflexivity.
Qed.

Lemma bucket_of_names (data : dict) (key s ty : str) :
  bucket_of data key s = Some ty -> In ty bucket_names.
Proof.
  unfold bucket_of.
  repeat match goal with
         | |- context [if ?b then _ else _] => destruct b eqn:?
         end; intros [= <-]; try (simpl; tauto).
  match goal with
  | H : str_in key [_; _] = true |- _ => apply str_in_In in H; simpl in H
  end.
  simpl. intuition.
Qed.

Lemma items_bucket (ce : buckets) :
  items ce = map (fun ty => (ty, bucket ce ty)) bucket_names.
Proof. reflexivity. Qed.

Lemma bucket_append_to (ce : buckets) (t key ty : str) :
  In t bucket_names -> In ty bucket_names ->
  bucket (append_to ce t key) ty
  = bucket ce ty ++ (if str_eqb t ty then [key] else []).
Proof.
  intros Ht Hty. simpl in Ht, Hty.
  repeat (destruct Ht as [<-|Ht]; [|]); try contradiction;
    repeat (destruct Hty as [<-|Hty]; [|]); try contradiction;
    cbn; rewrite ?app_nil_r; reflexivity.
Qed.

Lemma field_bucket_names (data : dict) (kv : str * value) (ty : str) :
  field_bucket data kv = Some ty -> In ty bucket_names.
Proof.
  unfold field_bucket. destruct (none_or_empty (snd kv)); [discriminate|].
  apply bucket_of_names.
Qed.

Lemma scan_field_spec (data : dict) (st : state) (kv : str * value) :
  scan_field data st kv
  = Some (State (has_pii st || field_fires kv)
                (dict_set (redacted_data st) (fst kv) (scan_entry kv))
                (add_to (combinatorial_elements st) (field_bucket data kv)
                        (fst kv))).
Proof.
  destruct kv as [key v]. unfold scan_field, field_fires, scan_entry, field_bucket.
  cbn [fst snd]. destruct (none_or_empty v).
  - simpl. now rewrite orb_false_r.
  - rewrite standalone_spec, collect_spec. reflexivity.
Qed.

Lemma scan_fold (data l : dict) :
  forall st, exists st',
    fold_left (scan_step data) l (Some st) = Some st'
    /\ has_pii st' = has_pii st || existsb field_fires l
    /\ redacted_data st'
       = fold_left (fun d kv => dict_set d (fst kv) (scan_entry kv)) l
                   (redacted_data st)
    /\ forall ty, In ty bucket_names ->
         bucket (combinatorial_elements st') ty
         = bucket (combinatorial_elements st) ty ++ members data ty l.
Proof.
  induction l as [|kv l IH]; intros st.
  - exists st. simpl. rewrite orb_false_r. repeat split.
    intros. now rewrite app_nil_r.
  - cbn [fold_left scan_step bind]. rewrite scan_field_spec.
    destruct (IH (State (has_pii st || field_fires kv)
                        (dict_set (redacted_data st) (fst kv) (scan_entry kv))
                        (add_to (combinatorial_elements st)
                                (field_bucket data kv) (fst kv))))
      as (st' & -> & Hh & Hd & Hb).
    exists st'. cbn [has_pii redacted_data combinatorial_elements] in *.
    repeat split.
    + rewrite Hh. simpl. now rewrite orb_assoc.
    + exact Hd.
    + intros ty Hty. rewrite (Hb ty Hty). unfold members, in_bucket. simpl.
      destruct (field_bucket data kv) as [t|] eqn:E; simpl; [|reflexivity].
      rewrite bucket_append_to by (eauto using field_bucket_names).
      destruct (str_eqb t ty); simpl; now rewrite <- app_assoc.
Qed.

(** The state after the scan of a whole record. *)
Lemma scan_spec (data : dict) :
  exists st,
    scan data = Some st
    /\ has_pii st = existsb field_fires data
    /\ redacted_data st
       = fold_left (fun d kv => dict_set d (fst kv) (scan_entry kv)) data []
    /\ forall ty, In ty bucket_names ->
         bucket (combinatorial_elements st) ty = members data ty data.
Proof.
  destruct (scan_fold data data (State false [] no_elements))
    as (st & H & Hh & Hd & Hb).
  exists st. repeat split; try assumption.
  intros ty Hty. rewrite (Hb ty Hty). simpl in Hty.
  repeat (destruct Hty as [<-|Hty]; [reflexivity|]). contradiction.
Qed.

Lemma scan_redacted_data (data : dict) :
  NoDup (keys data) ->
  fold_left (fun d kv => dict_set d (fst kv) (scan_entry kv)) data []
  = map (fun kv => (fst kv, scan_entry kv)) data.
Proof. intros H. now rewrite fold_dict_set. Qed.

(** ** The redaction of the combinatorial elements *)

Lemma dict_set_same (d : dict) (k : str) (v : value) :
  dict_get d k = Some v -> dict_set d k v = d.
Proof.
  induction d as [|[k' v'] d IH]; simpl; [discriminate|].
  destruct (str_eqb k' k); [now intros [= ->] | intros H; now rewrite IH].
Qed.

Lemma redact_field_spec (ty : str) (d : dict) (field : str) :
  redact_field ty (Some d) field
  = Some match dict_get d field with
         | Some v => dict_set d field (upd ty v)
         | None => d
         end.
Proof.
  unfold redact_field, upd. cbn [bind].
  destruct (dict_get d field) as [v|] eqn:E; [|reflexivity].
  rewrite !redact_text_mask. cbn [bind].
  destruct (str_eqb ty (lit "name")); [reflexivity|].
  destruct (str_eqb ty (lit "email")); [reflexivity|].
  destruct (str_in ty _); [reflexivity|].
  now rewrite dict_set_same.
Qed.

Lemma redact_bucket_fst (ty : str) (fields : list str) (kv : str * value) :
  fst (redact_bucket ty fields kv) = fst kv.
Proof. unfold redact_bucket. now destruct (str_in (fst kv) fields). Qed.

Lemma redact_fields_spec (ty : str) (fields : list str) :
  forall d, NoDup (keys d) -> NoDup fields ->
  fold_left (redact_field ty) fields (Some d)
  = Some (map (redact_bucket ty fields) d).
Proof.
  induction fields as [|f fs IH]; intros d Hd Hf.
  - simpl. f_equal. symmetry. rewrite <- (map_id d) at 2. now apply map_ext.
  - inversion Hf as [|? ? Hnin Hfs]; subst.
    cbn [fold_left]. rewrite redact_field_spec, dict_update_map by assumption.
    rewrite IH; [|unfold keys in *|assumption].
    + f_equal. rewrite map_map. apply map_ext. intros [k v].
      unfold redact_bucket. cbn [fst snd str_in existsb].
      rewrite (str_eqb_sym k f).
      destruct (str_eqb f k) eqn:E; cbn [fst snd orb]; [|reflexivity].
      apply str_eqb_eq in E. subst.
      apply str_in_not_In in Hnin. now rewrite Hnin.
    + rewrite map_map.
      erewrite map_ext; [exact Hd|]. intros [k v]. simpl.
      now destruct (str_eqb k f).
Qed.

Lemma keys_redact_bucket (ty : str) (fields : list str) (d : dict) :
  keys (map (redact_bucket ty fields) d) = keys d.
Proof.
  unfold keys. rewrite map_map. apply map_ext. intros kv.
  apply redact_bucket_fst.
Qed.

(** The second loop, over the buckets [tys]. *)
Lemma redact_buckets_spec (fields_of : str -> list str) (tys : list str) :
  (forall ty, NoDup (fields_of ty)) ->
  forall d, NoDup (keys d) ->
  fold_left (fun acc tf => fold_left (redact_field (fst tf)) (snd tf) acc)
            (map (fun ty => (ty, fields_of ty)) tys) (Some d)
  = Some (fold_left (fun d ty => map (redact_bucket ty (fields_of ty)) d) tys d).
Proof.
  intros Hf. induction tys as [|ty tys IH]; intros d Hd; [reflexivity|].
  cbn [map fold_left fst snd]. rewrite redact_fields_spec by auto.
  apply IH. now rewrite keys_redact_bucket.
Qed.

(** ** [analyze_record] as a function of the record *)

Lemma combinatorial_count_spec (data : dict) (ce : buckets) :
  (forall ty, In ty bucket_names -> bucket ce ty = members data ty data) ->
  combinatorial_count ce = count data.
Proof.
  intros Hb. unfold combinatorial_count, count. rewrite items_bucket.
  induction bucket_names as [|ty tys IH]; [reflexivity|].
  cbn [map filter snd]. rewrite (Hb ty) by now left.
  destruct (negb (is_empty (members data ty data))); cbn [length];
    rewrite IH; auto; intros; apply Hb; now right.
Qed.

Lemma same_key_same_field (data : dict) (a b : str * value) :
  NoDup (keys data) -> In a data -> In b data -> fst a = fst b -> a = b.
Proof.
  induction data as [|x data IH]; simpl; [easy|].
  intros Hnd Ha Hb E. inversion Hnd as [|? ? Hx Hd]; subst.
  destruct Ha as [<-|Ha], Hb as [<-|Hb]; auto.
  - elim Hx. rewrite E. now apply in_map.
  - elim Hx. rewrite <- E. now apply in_map.
Qed.

Lemma members_in (data : dict) (ty : str) (kv : str * value) :
  NoDup (keys data) -> In kv data ->
  str_in (fst kv) (members data ty data) = in_bucket data ty kv.
Proof.
  intros Hnd Hin. destruct (in_bucket data ty kv) eqn:E.
  - apply str_in_In. unfold members. apply in_map. apply filter_In. tauto.
  - apply str_in_not_In. unfold members. intros H.
    apply in_map_iff in H. destruct H as (kv' & Hk & H).
    apply filter_In in H. destruct H as [H1 H2].
    rewrite (same_key_same_field data kv' kv Hnd H1 Hin Hk) in H2. congruence.
Qed.

Lemma members_NoDup (data : dict) (ty : str) :
  NoDup (keys data) -> NoDup (members data ty data).
Proof. apply filter_keys_NoDup. Qed.

(** The five passes of the second loop change a field once, by its bucket. *)
Lemma redact_all_buckets (data : dict) :
  NoDup (keys data) ->
  fold_left (fun d ty => map (redact_bucket ty (members data ty data)) d)
            bucket_names (map (fun kv => (fst kv, scan_entry kv)) data)
  = map (fun kv => (fst kv, final data kv)) data.
Proof.
  intros Hnd. cbn [fold_left bucket_names]. rewrite !map_map.
  apply map_ext_in. intros kv Hin.
  assert (Hm : forall ty v,
             redact_bucket ty (members data ty data) (fst kv, v)
             = if in_bucket data ty kv then (fst kv, upd ty v) else (fst kv, v)).
  { intros ty v. unfold redact_bucket. cbn [fst snd]. now rewrite members_in. }
  unfold final, in_bucket in *.
  destruct (field_bucket data kv) as [t|] eqn:E.
  - apply field_bucket_names in E. simpl in E.
    repeat (destruct E as [<-|E];
            [repeat (rewrite Hm; cbn [str_eqb lit list_ascii_of_string Ascii.eqb Bool.eqb andb]);
             reflexivity|]).
    contradiction.
  - now rewrite !Hm.
Qed.

Theorem analyze_record_spec (data : dict) :
  NoDup (keys data) ->
  analyze_record data = Some (verdict data, redacted data).
Proof.
  intros Hnd. unfold analyze_record, verdict, redacted.
  destruct (scan_spec data) as (st & -> & Hh & Hd & Hb). cbn [bind].
  rewrite (combinatorial_count_spec data _ Hb), Hd, Hh, scan_redacted_data
    by assumption.
  destruct (2 <=? count data) eqn:C.
  - rewrite items_bucket.
    rewrite (map_ext_in _ (fun ty => (ty, members data ty data)))
      by (intros ty Hty; now rewrite Hb).
    rewrite redact_buckets_spec.
    + cbn [bind]. rewrite redact_all_buckets by assumption.
      now rewrite orb_true_r.
    + intros ty. now apply members_NoDup.
    + now rewrite keys_map_snd.
  - now rewrite orb_false_r.
Qed.

Lemma redact_fields_some (ty : str) (fields : list str) :
  forall d, fold_left (redact_field ty) fields (Some d) <> None.
Proof.
  induction fields as [|f fs IH]; intros d; cbn [fold_left]; [discriminate|].
  rewrite redact_field_spec. apply IH.
Qed.

Lemma redact_buckets_some (its : list (str * list str)) :
  forall d,
    fold_left (fun acc tf => fold_left (redact_field (fst tf)) (snd tf) acc)
              its (Some d) <> None.
Proof.
  induction its as [|[ty fs] its IH]; intros d; cbn [fold_left fst snd];
    [discriminate|].
  pose proof (redact_fields_some ty fs d) as H.
  destruct (fold_left (redact_field ty) fs (Some d)); [apply IH | congruence].
Qed.

(** The verdict needs no assumption on the keys. *)
Lemma analyze_record_verdict (data : dict) :
  exists rd, analyze_record data = Some (verdict data, rd).
Proof.
  unfold analyze_record, verdict.
  destruct (scan_spec data) as (st & -> & Hh & _ & Hb). cbn [bind].
  rewrite (combinatorial_count_spec data _ Hb), Hh.
  destruct (2 <=? count data).
  - pose proof (redact_buckets_some (items (combinatorial_elements st))
                                    (redacted_data st)) as H.
    destruct (fold_left _ (items _) _) as [rd|]; [|congruence].
    exists rd. cbn [bind]. now rewrite orb_true_r.
  - eexists. now rewrite orb_false_r.
Qed.

Lemma dict_get_redacted (data : dict) (kv : str * value) :
  NoDup (keys data) -> In kv data ->
  dict_get (redacted data) (fst kv)
  = Some (if 2 <=? count data then final data kv else scan_entry kv).
Proof.
  intros Hnd Hin. apply dict_get_NoDup.
  - unfold redacted. now rewrite keys_map_snd.
  - unfold redacted.
    apply (in_map (fun kv => (fst kv, if 2 <=? count data then final data kv
                                       else scan_entry kv))). exact Hin.
Qed.

(** ** Character classes *)

Ltac by_cases_on_char c :=
  destruct c as [[] [] [] [] [] [] [] []]; vm_compute; congruence.

Lemma digit_29_digit (c : ascii) : in_range 50 57 c = true -> is_digit c = true.
Proof. by_cases_on_char c. Qed.

Lemma digit_word (c : ascii) : is_digit c = true -> is_word c = true.
Proof. by_cases_on_char c. Qed.

Lemma digit_not_space (c : ascii) : is_digit c = true -> is_space c = false.
Proof. by_cases_on_char c. Qed.

Lemma digit_not_blank (c : ascii) : is_digit c = true -> Ascii.eqb " " c = false.
Proof. by_cases_on_char c. Qed.

Lemma upper_word (c : ascii) : is_upper c = true -> is_word c = true.
Proof. by_cases_on_char c. Qed.

Lemma lower_word (c : ascii) : is_lower c = true -> is_word c = true.
Proof. by_cases_on_char c. Qed.

Lemma alpha_word (c : ascii) : is_alpha c = true -> is_word c = true.
Proof. by_cases_on_char c. Qed.

Lemma upper_not_space (c : ascii) : is_upper c = true -> is_space c = false.
Proof. by_cases_on_char c. Qed.

Lemma lower_not_space (c : ascii) : is_lower c = true -> is_space c = false.
Proof. by_cases_on_char c. Qed.

Lemma alpha_not_space (c : ascii) : is_alpha c = true -> is_space c = false.
Proof. by_cases_on_char c. Qed.

Lemma word_not_space (c : ascii) : is_word c = true -> is_space c = false.
Proof. by_cases_on_char c. Qed.

Lemma space_not_lower (c : ascii) : is_space c = true -> is_lower c = false.
Proof. by_cases_on_char c. Qed.

Lemma alpha_not_dot (c : ascii) : is_alpha c = true -> is_char "." c = false.
Proof. by_cases_on_char c. Qed.

Lemma alpha_not_at (c : ascii) : is_alpha c = true -> c <> "@"%char.
Proof. by_cases_on_char c. Qed.

Lemma email_local_not_at (c : ascii) : email_local c = true -> c <> "@"%char.
Proof. by_cases_on_char c. Qed.

Lemma email_domain_not_at (c : ascii) : email_domain c = true -> c <> "@"%char.
Proof. by_cases_on_char c. Qed.

Lemma alpha_email_domain (c : ascii) : is_alpha c = true -> email_domain c = true.
Proof. by_cases_on_char c. Qed.

(** ** Matching a string of a known form *)

Lemma nth_error_last (a rest : str) (c : ascii) :
  nth_error (c :: a ++ rest) (length a) = last_opt (Some c) a.
Proof.
  revert c; induction a as [|c' a IH]; intros c; [reflexivity|]. apply IH.
Qed.

Lemma prev_after_app (prev : option ascii) (a rest : str) :
  prev_after prev (a ++ rest) (length a) = last_opt prev a.
Proof. destruct a as [|c a]; [reflexivity | apply nth_error_last]. Qed.

Lemma last_opt_Forall (P : ascii -> Prop) (a : str) (prev : option ascii) :
  a <> [] -> Forall P a -> exists c, last_opt prev a = Some c /\ P c.
Proof.
  intros Ha Hf. revert prev. induction Hf as [|c a Hc Hf IH]; [congruence|].
  intros prev. destruct a as [|c' a]; [now exists c|].
  apply (IH ltac:(congruence) (Some c)).
Qed.

Lemma last_opt_last (a : str) (prev : option ascii) (d : ascii) :
  a <> [] -> last_opt prev a = Some (last a d).
Proof.
  revert prev; induction a as [|c a IH]; intros prev Ha; [congruence|].
  destruct a as [|c' a]; [reflexivity|].
  change (last_opt prev (c :: c' :: a)) with (last_opt (Some c) (c' :: a)).
  rewrite IH by congruence. reflexivity.
Qed.

Lemma last_opt_app (a b : str) (prev : option ascii) :
  last_opt prev (a ++ b) = last_opt (last_opt prev a) b.
Proof. apply fold_left_app. Qed.

Lemma prefix_len_cap_exact (cls : ascii -> bool) (a rest : str) :
  Forall (fun c => cls c = true) a ->
  prefix_len cls (cap (Some (length a)) (a ++ rest)) = length a.
Proof.
  intros H. cbn [cap].
  rewrite firstn_app, Nat.sub_diag, firstn_all, firstn_O, app_nil_r.
  rewrite <- (app_nil_r a) at 1. rewrite prefix_len_app by assumption.
  simpl. lia.
Qed.

Lemma prefix_len_cap_stop (cls : ascii -> bool) (hi : option nat) (a rest : str) :
  Forall (fun c => cls c = true) a ->
  prefix_len cls rest = 0 ->
  match hi with Some h => length a <= h | None => True end ->
  prefix_len cls (cap hi (a ++ rest)) = length a.
Proof.
  intros Ha Hr Hh. destruct hi as [h|]; cbn [cap].
  - rewrite firstn_app, firstn_all2 by assumption.
    rewrite prefix_len_app by assumption.
    pose proof (prefix_len_cap cls (Some (h - length a)) rest) as Hc.
    cbn [cap] in Hc. lia.
  - rewrite prefix_len_app by assumption. lia.
Qed.

Lemma skipn_length_app {A : Type} (a rest : list A) :
  skipn (length a) (a ++ rest) = rest.
Proof. induction a; simpl; auto. Qed.

(** A repetition that has to give back [b] of the run [a ++ b]. *)
Lemma match_rep_backtrack (cls : ascii -> bool) (lo : nat) (hi : option nat)
      (r : regex) (prev : option ascii) (a b rest : str) (m : nat) :
  lo <= length a ->
  prefix_len cls (cap hi (a ++ b ++ rest)) = length (a ++ b) ->
  match_here r (last_opt prev a) (b ++ rest) = Some m ->
  (forall j, length a < j -> j <= length (a ++ b) ->
             match_here r (prev_after prev (a ++ b ++ rest) j)
                        (skipn j (a ++ b ++ rest)) = None) ->
  match_here (Rep cls lo hi :: r) prev (a ++ b ++ rest) = Some (length a + m).
Proof.
  intros Hlo Hlen Hm Hnone. cbn [match_here]. rewrite Hlen.
  apply try_down_first.
  - assumption.
  - rewrite length_app. lia.
  - now rewrite prev_after_app, skipn_length_app.
  - exact Hnone.
Qed.

(** A repetition that keeps all it takes. *)
Lemma match_rep_greedy (cls : ascii -> bool) (lo : nat) (hi : option nat)
      (r : regex) (prev : option ascii) (a rest : str) (m : nat) :
  lo <= length a ->
  prefix_len cls (cap hi (a ++ rest)) = length a ->
  match_here r (last_opt prev a) rest = Some m ->
  match_here (Rep cls lo hi :: r) prev (a ++ rest) = Some (length a + m).
Proof.
  intros Hlo Hlen Hm.
  apply (@match_rep_backtrack cls lo hi r prev a [] rest); auto.
  - simpl. now rewrite app_nil_r.
  - intros j ? Hj. rewrite app_nil_r in Hj. lia.
Qed.

(** An unbounded repetition that runs to the end and gives back [b]. *)
Lemma match_rep_giveback (cls : ascii -> bool) (lo : nat) (r : regex)
      (prev : option ascii) (a b : str) (m : nat) :
  lo <= length a ->
  Forall (fun c => cls c = true) (a ++ b) ->
  match_here r (last_opt prev a) b = Some m ->
  (forall j p, 0 < j -> j <= length b -> match_here r p (skipn j b) = None) ->
  match_here (Rep cls lo None :: r) prev (a ++ b) = Some (length a + m).
Proof.
  intros Hlo Hab Hm Hnone.
  rewrite <- (app_nil_r b) at 1.
  apply match_rep_backtrack; rewrite ?app_nil_r; auto.
  - cbn [cap]. rewrite <- (app_nil_r (a ++ b)) at 1.
    rewrite prefix_len_app by assumption. simpl. lia.
  - intros j Hj1 Hj2. rewrite length_app in Hj2.
    rewrite skipn_app, skipn_all2 by lia. cbn [app].
    apply Hnone; lia.
Qed.

(** A repetition that takes all that is left. *)
Lemma match_rep_rest (cls : ascii -> bool) (lo : nat) (hi : option nat)
      (r : regex) (prev : option ascii) (a : str) (m : nat) :
  lo <= length a ->
  Forall (fun c => cls c = true) a ->
  match hi with Some h => length a <= h | None => True end ->
  match_here r (last_opt prev a) [] = Some m ->
  match_here (Rep cls lo hi :: r) prev a = Some (length a + m).
Proof.
  intros Hlo Ha Hh Hm. rewrite <- (app_nil_r a) at 1.
  apply match_rep_greedy; auto. now apply prefix_len_cap_stop.
Qed.

(** A repetition that finds too few characters. *)
Lemma match_rep_short (cls : ascii -> bool) (lo : nat) (hi : option nat)
      (r : regex) (prev : option ascii) (s : str) :
  prefix_len cls (cap hi s) < lo ->
  match_here (Rep cls lo hi :: r) prev s = None.
Proof.
  intros H. cbn [match_here]. apply try_down_none. intros; lia.
Qed.

(** A pattern with a mandatory character matches nothing at the end. *)
Lemma match_nil_none (r : regex) (prev : option ascii) :
  existsb mandatory r = true -> match_here r prev [] = None.
Proof.
  induction r as [|i r IH]; simpl; [discriminate|].
  destruct i as [cls [|lo] hi | | |]; simpl.
  - intros H. destruct hi as [[|h]|]; simpl; now rewrite IH.
  - intros _. now destruct hi as [[|h]|].
  - intros H. destruct (at_boundary prev []); auto.
  - intros H. destruct prev; auto.
  - auto.
Qed.

Section Scans.

Variable r : regex.
Hypothesis r_mandatory : existsb mandatory r = true.

(** A match of the whole string is the only one [sub] replaces. *)
Lemma sub_match_all (repl : str -> option str) (m out : str) :
  m <> [] -> match_here r None m = Some (length m) -> repl m = Some out ->
  sub r repl m = Some out.
Proof.
  intros Hm Hmatch Hrepl. rewrite <- (app_nil_r m) at 1.
  rewrite (@sub_match_head r repl m [] out Hm);
    [|now rewrite app_nil_r | exact Hrepl].
  cbn [sub_from]. rewrite match_nil_none by assumption. cbn [bind].
  now rewrite app_nil_r.
Qed.

Lemma findall_from_skip (a : str) (prev : option ascii) :
  findall_from r (length a) prev a = [].
Proof.
  revert prev; induction a as [|c a IH]; intros prev; cbn [length findall_from].
  - now rewrite match_nil_none.
  - apply IH.
Qed.

(** A match of the whole string is the only one [findall] returns. *)
Lemma findall_match_all (m : str) :
  m <> [] -> match_here r None m = Some (length m) -> findall r m = [m].
Proof.
  intros Hm Hmatch. unfold findall. destruct m as [|c m]; [congruence|].
  cbn [findall_from]. rewrite Hmatch, firstn_all.
  cbn [length]. rewrite Nat.sub_succ, Nat.sub_0_r, findall_from_skip.
  reflexivity.
Qed.

End Scans.

(** [strip] leaves a string that neither begins nor ends with whitespace. *)
Lemma lstrip_id (c : ascii) (s : str) : is_space c = false -> lstrip (c :: s) = c :: s.
Proof. intros H. simpl. now rewrite H. Qed.

Lemma strip_id (s : str) (c e : ascii) :
  hd_error s = Some c -> is_space c = false ->
  last_opt None s = Some e -> is_space e = false ->
  strip s = s.
Proof.
  intros Hc Hsc He Hse. unfold strip, rstrip.
  destruct s as [|x s]; [discriminate|]. injection Hc as ->.
  assert (Hrev : exists t, rev (c :: s) = e :: t).
  { rewrite (last_opt_last None "000"%char) in He by congruence.
    assert (E : last (c :: s) "000"%char = e) by congruence.
    exists (rev (removelast (c :: s))).
    rewrite (app_removelast_last "000"%char (l:=c :: s)) at 1 by congruence.
    now rewrite rev_app_distr, E. }
  destruct Hrev as (t & Hrev).
  rewrite Hrev, lstrip_id, <- Hrev, rev_involutive by assumption.
  now apply lstrip_id.
Qed.

(** ** National identity numbers *)

Ltac explicit_digits :=
  repeat match goal with
         | H : digits _ ?l |- _ => destruct H as [? ?]
         | H : length ?l = _ |- _ =>
             first [ destruct l; simpl in H; [discriminate H|]; injection H as H
                   | destruct l; simpl in H; [clear H | discriminate H] ]
         | H : Forall _ (_ :: _) |- _ => inversion H; clear H; subst
         | H : Forall _ [] |- _ => clear H
         end.

(** One step of a match: the repetition takes [a] and keeps it. *)
Ltac take a :=
  eapply (@match_rep_greedy _ _ _ _ _ a);
  [ cbn [length lit list_ascii_of_string]; lia
  |
  | cbn [last_opt fold_left lit list_ascii_of_string] ].

Ltac all_in_class :=
  repeat constructor; auto using digit_29_digit.

Lemma match_boundary (r : regex) (prev : option ascii) (s : str) :
  at_boundary prev s = true ->
  match_here (WordB :: r) prev s = match_here r prev s.
Proof. intros H. cbn [match_here]. now rewrite H. Qed.

Ltac boundary :=
  rewrite match_boundary;
  [| unfold at_boundary; cbn [hd_error word_opt app];
     rewrite ?digit_word, ?upper_word, ?lower_word, ?alpha_word
       by auto using digit_29_digit;
     reflexivity ].

(** The same for a repetition that takes as many as it may. *)
Ltac take_all a :=
  take a; [ apply (@prefix_len_cap_exact _ a); all_in_class | ].

Lemma aadhar_match (d : ascii) (a b c s1 s2 : str) :
  in_range 50 57 d = true -> digits 3 a -> digits 4 b -> digits 4 c ->
  blank_or_none s1 -> blank_or_none s2 ->
  match_here patterns_aadhar None (d :: a ++ s1 ++ b ++ s2 ++ c)
  = Some (length (d :: a ++ s1 ++ b ++ s2 ++ c)).
Proof.
  intros Hd Ha Hb Hc H1 H2. explicit_digits.
  etransitivity.
  - unfold patterns_aadhar, one, opt, exactly. boundary.
    change (d :: ?x) with ([d] ++ x).
    take_all [d].
    match goal with |- context [?x ++ s1 ++ _] => take_all x end.
    take s1.
    { destruct H1 as [->| ->]; [|apply (@prefix_len_cap_exact _ (lit " ")); all_in_class].
      cbn [cap app firstn prefix_len]. now rewrite digit_not_space. }
    match goal with |- context [?x ++ s2 ++ _] => take_all x end.
    take s2.
    { destruct H2 as [->| ->]; [|apply (@prefix_len_cap_exact _ (lit " ")); all_in_class].
      cbn [cap app firstn prefix_len]. now rewrite digit_not_space. }
    eapply match_rep_rest; [cbn [length]; lia | all_in_class | cbn [length]; lia |].
    cbn [last_opt fold_left]. boundary. reflexivity.
  - f_equal. cbn [length]. rewrite !length_app. cbn [length]. lia.
Qed.

Lemma lastn_app (x c : str) : lastn (length c) (x ++ c) = c.
Proof.
  unfold lastn. rewrite length_app.
  replace (length x + length c - length c) with (length x) by lia.
  apply skipn_length_app.
Qed.

Lemma redact_text_aadhar (text : str) :
  text <> [] -> strip text = text ->
  match_here patterns_aadhar None text = Some (length text) ->
  redact_text text (lit "aadhar") = redact_aadhar text.
Proof.
  intros Hne Hs Hm. unfold redact_text.
  destruct text as [|x text]; [congruence|]. cbn [is_empty]. rewrite Hs.
  change (str_eqb (lit "aadhar") (lit "phone")) with false.
  change (str_eqb (lit "aadhar") (lit "aadhar")) with true. cbv iota.
  destruct (redact_aadhar (x :: text)) as [out|] eqn:E.
  - now apply sub_match_all.
  - unfold redact_aadhar in E. destruct (existsb _ _); discriminate.
Qed.

Lemma aadhar_redact (d : ascii) (a b c s1 s2 : str) :
  in_range 50 57 d = true -> digits 3 a -> digits 4 b -> digits 4 c ->
  blank_or_none s1 -> blank_or_none s2 ->
  redact_text (d :: a ++ s1 ++ b ++ s2 ++ c) (lit "aadhar")
  = Some ((if is_empty (s1 ++ s2) then lit "XXXXXXXX" else lit "XXXX XXXX ") ++ c).
Proof.
  intros Hd Ha Hb Hc H1 H2.
  rewrite redact_text_aadhar; [|discriminate| |now apply aadhar_match].
  - unfold redact_aadhar.
    assert (L : lastn 4 (d :: a ++ s1 ++ b ++ s2 ++ c) = c).
    { destruct Hc as [Hc _]. rewrite <- Hc at 1.
      change (d :: a ++ s1 ++ b ++ s2 ++ c) with ([d] ++ a ++ s1 ++ b ++ s2 ++ c).
      rewrite !app_assoc. apply lastn_app. }
    rewrite L. clear L. explicit_digits.
    destruct H1 as [->| ->], H2 as [->| ->];
      cbn [existsb app lit list_ascii_of_string];
      rewrite !digit_not_blank by auto using digit_29_digit; reflexivity.
  - explicit_digits.
    eapply (@strip_id _ d); [reflexivity | auto using digit_29_digit, digit_not_space | |].
    + cbn [last_opt fold_left]. rewrite !fold_left_app. reflexivity.
    + now apply digit_not_space.
Qed.

Lemma digits_of (n : nat) (l : str) :
  length l = n -> forallb is_digit l = true -> digits n l.
Proof. intros H1 H2. split; [assumption | now apply forallb_Forall]. Qed.

(** ** Names *)

Lemma capitalized_no_space (w : str) :
  capitalized w -> w <> [] /\ Forall (fun x => is_space x = false) w.
Proof.
  intros (c & t & -> & Hc & _ & Ht). split; [discriminate|].
  constructor; [now apply upper_not_space|].
  eapply Forall_impl; [|exact Ht]. apply lower_not_space.
Qed.

Lemma is_capitalized_spec (w : str) : is_capitalized w = true -> capitalized w.
Proof.
  destruct w as [|c t]; simpl; [discriminate|].
  rewrite !andb_true_iff, negb_true_iff, is_empty_false, forallb_Forall.
  intros [[H1 H2] H3]. now exists c, t.
Qed.

Lemma is_blank_spec (sp : str) : is_blank sp = true -> spaces sp.
Proof.
  unfold is_blank, spaces.
  now rewrite andb_true_iff, negb_true_iff, is_empty_false, forallb_Forall.
Qed.

Lemma split_ws_from_word (w rest cur : str) :
  Forall (fun x => is_space x = false) w ->
  split_ws_from cur (w ++ rest) = split_ws_from (cur ++ w) rest.
Proof.
  intros H. revert cur. induction H as [|c w Hc _ IH]; intros cur.
  - now rewrite app_nil_r.
  - cbn [app split_ws_from]. rewrite Hc, IH, <- app_assoc. reflexivity.
Qed.

Lemma split_ws_from_blank (sp rest : str) :
  Forall (fun x => is_space x = true) sp ->
  split_ws_from [] (sp ++ rest) = split_ws_from [] rest.
Proof.
  induction 1 as [|c sp Hc _ IH]; [reflexivity|].
  cbn [app split_ws_from]. now rewrite Hc.
Qed.

Lemma split_ws_from_spaces (sp rest cur : str) :
  spaces sp -> cur <> [] ->
  split_ws_from cur (sp ++ rest) = cur :: split_ws_from [] rest.
Proof.
  intros [Hne Hsp] Hcur. destruct Hsp as [|c sp Hc Hsp]; [congruence|].
  cbn [app split_ws_from]. rewrite Hc, split_ws_from_blank by assumption.
  destruct cur; [congruence | reflexivity].
Qed.

(** Two words and the whitespace between them split into the two words. *)
Lemma split_ws_two (w1 w2 sp : str) :
  capitalized w1 -> capitalized w2 -> spaces sp ->
  split_ws (w1 ++ sp ++ w2) = [w1; w2].
Proof.
  intros H1 H2 Hsp. unfold split_ws.
  destruct (capitalized_no_space H1) as [N1 F1].
  destruct (capitalized_no_space H2) as [N2 F2].
  rewrite split_ws_from_word by assumption. cbn [app].
  rewrite split_ws_from_spaces by assumption.
  rewrite <- (app_nil_r w2), split_ws_from_word by assumption.
  rewrite !app_nil_r. cbn [app split_ws_from].
  destruct w2; [congruence | reflexivity].
Qed.

Lemma nonempty_length {A : Type} (l : list A) : l <> [] -> 1 <= length l.
Proof. destruct l; simpl; [congruence | lia]. Qed.

Lemma name_match (w1 w2 sp : str) :
  capitalized w1 -> capitalized w2 -> spaces sp ->
  match_here name_pattern None (w1 ++ sp ++ w2)
  = Some (length (w1 ++ sp ++ w2)).
Proof.
  intros (c1 & t1 & -> & U1 & N1 & L1) (c2 & t2 & -> & U2 & N2 & L2) [Ns Fs].
  pose proof (nonempty_length N1). pose proof (nonempty_length N2).
  pose proof (nonempty_length Ns).
  etransitivity.
  - unfold name_pattern, one, plus. cbn [app]. boundary.
    change (c1 :: ?x) with ([c1] ++ x). take_all [c1].
    take t1.
    { apply prefix_len_cap_stop; [assumption| |exact I].
      destruct Fs as [|x sp Hx _]; [congruence|].
      cbn [app prefix_len]. now rewrite space_not_lower. }
    take sp.
    { apply prefix_len_cap_stop; [assumption| |exact I].
      cbn [prefix_len]. now rewrite upper_not_space. }
    change (c2 :: t2) with ([c2] ++ t2). take_all [c2].
    eapply match_rep_rest; [lia | assumption | exact I |].
    destruct (@last_opt_Forall _ t2 (Some c2) N2 L2) as (e & -> & He).
    rewrite match_boundary; [reflexivity|].
    unfold at_boundary. cbn [word_opt hd_error]. now rewrite lower_word.
  - f_equal. cbn [length app]. rewrite !length_app. cbn [length]. lia.
Qed.

Lemma name_strip (w1 w2 sp : str) :
  capitalized w1 -> capitalized w2 -> spaces sp ->
  strip (w1 ++ sp ++ w2) = w1 ++ sp ++ w2.
Proof.
  intros (c1 & t1 & -> & U1 & N1 & L1) (c2 & t2 & -> & U2 & N2 & L2) _.
  destruct (@last_opt_Forall _ t2 (Some c2) N2 L2) as (e & E & He).
  eapply (@strip_id _ c1 e).
  - reflexivity.
  - now apply upper_not_space.
  - rewrite !last_opt_app. exact E.
  - now apply lower_not_space.
Qed.

(** The names found in a value that is two capitalized words. *)
Lemma extract_names_two (w1 w2 sp : str) :
  capitalized w1 -> capitalized w2 -> spaces sp ->
  extract_names (w1 ++ sp ++ w2)
  = if str_in (lower w1) stoplist || str_in (lower w2) stoplist
    then [] else [w1 ++ sp ++ w2].
Proof.
  intros H1 H2 Hsp. unfold extract_names.
  assert (Hne : w1 ++ sp ++ w2 <> []).
  { destruct H1 as (c & t & -> & _). discriminate. }
  rewrite (proj2 (is_empty_false _) Hne), name_strip by assumption.
  rewrite findall_match_all; [|reflexivity|assumption|now apply name_match].
  cbn [filter]. unfold keep_name. rewrite split_ws_two by assumption.
  cbn [length Nat.leb existsb andb]. rewrite orb_false_r.
  now destruct (str_in (lower w1) stoplist || str_in (lower w2) stoplist).
Qed.

(** *** The runs found inside a longer value *)

(** What [findall] returns are matches of the pattern somewhere in the
    string. *)
Lemma findall_from_In (r : regex) (m : str) :
  forall s skip prev,
    In m (findall_from r skip prev s) ->
    exists prev' s' n, match_here r prev' s' = Some n /\ m = firstn n s'.
Proof.
  induction s as [|c s IH]; intros skip prev H.
  - destruct skip as [|k]; cbn [findall_from] in H; [|contradiction].
    destruct (match_here r prev []) as [n|] eqn:E; [|contradiction].
    destruct H as [<-|[]]. now exists prev, [], n.
  - destruct skip as [|k]; cbn [findall_from] in H.
    + destruct (match_here r prev (c :: s)) as [n|] eqn:E.
      * destruct H as [<-|H]; [now exists prev, (c :: s), n | now apply IH in H].
      * now apply IH in H.
    + now apply IH in H.
Qed.

Lemma match_here_bounded_shape (r : regex) :
  forall prev s n, match_here r prev s = Some n -> bounded_shape r (firstn n s).
Proof.
  induction r as [|i r IH]; intros prev s n; simpl.
  - now intros [= <-].
  - destruct i as [cls lo hi | | |].
    + intros H. apply try_down_some in H.
      destruct H as (k & m & Hlo & Hk & Hm & ->).
      pose proof (match_here_shape _ _ _ Hm) as [Hlen _].
      apply IH in Hm.
      pose proof (prefix_len_cap cls hi s) as Hc.
      pose proof (prefix_len_le cls s) as Hl.
      pose proof (prefix_len_le cls (cap hi s)) as Hh.
      exists (firstn k s), (firstn m (skipn k s)). repeat split.
      * apply firstn_plus.
      * rewrite length_firstn. lia.
      * destruct hi as [h|]; [|exact I]. cbn [within cap] in *.
        rewrite length_firstn in *. lia.
      * apply prefix_len_firstn. lia.
      * assumption.
    + destruct (at_boundary prev s); [apply IH | discriminate].
    + destruct prev; [discriminate | apply IH].
    + destruct (at_end s); [apply IH | discriminate].
Qed.

(** A match of the name pattern is two capitalized words and the whitespace
    between them. *)
Lemma name_found (prev : option ascii) (s : str) (n : nat) :
  match_here name_pattern prev s = Some n ->
  exists w1 sp w2, firstn n s = w1 ++ sp ++ w2
                   /\ capitalized w1 /\ capitalized w2 /\ spaces sp.
Proof.
  intros H. apply match_here_bounded_shape in H.
  unfold name_pattern, one, plus in H. cbn [bounded_shape within] in H.
  destruct H as (a1 & b1 & -> & L1 & B1 & F1 & a2 & b2 & -> & L2 & _ & F2
                 & a3 & b3 & -> & L3 & _ & F3 & a4 & b4 & -> & L4 & B4 & F4
                 & a5 & b5 & -> & L5 & _ & F5 & ->).
  destruct a1 as [|c1 [|? ?]]; cbn [length] in L1, B1; try lia.
  destruct a4 as [|c4 [|? ?]]; cbn [length] in L4, B4; try lia.
  exists (c1 :: a2), a3, (c4 :: a5). rewrite app_nil_r.
  inversion F1; inversion F4; subst.
  repeat split.
  - exists c1, a2. repeat split; try assumption.
    intros ->. cbn [length] in L2. lia.
  - exists c4, a5. repeat split; try assumption.
    intros ->. cbn [length] in L5. lia.
  - intros ->. cbn [length] in L3. lia.
  - assumption.
Qed.

Lemma findall_name_In (s m : str) :
  In m (findall name_pattern s) ->
  exists w1 sp w2, m = w1 ++ sp ++ w2
                   /\ capitalized w1 /\ capitalized w2 /\ spaces sp.
Proof.
  intros H. apply findall_from_In in H. destruct H as (prev & s' & n & H & ->).
  now apply name_found in H.
Qed.

(** The test of [extract_names] on two capitalized words. *)
Lemma keep_name_two (w1 w2 sp : str) :
  capitalized w1 -> capitalized w2 -> spaces sp ->
  keep_name (w1 ++ sp ++ w2)
  = negb (str_in (lower w1) stoplist || str_in (lower w2) stoplist).
Proof.
  intros H1 H2 Hsp. unfold keep_name. rewrite split_ws_two by assumption.
  cbn [length Nat.leb existsb andb]. now rewrite orb_false_r.
Qed.

(** [extract_names] keeps the runs found that pass the test, also on the
    empty string. *)
Lemma extract_names_filter (text : str) :
  extract_names text = filter keep_name (findall name_pattern (strip text)).
Proof. unfold extract_names. destruct text; reflexivity. Qed.

(** [strip] twice is [strip] once. *)
Lemma lstrip_head (s : str) :
  lstrip s = [] \/ exists c t, lstrip s = c :: t /\ is_space c = false.
Proof.
  induction s as [|c s IH]; [now left|]. cbn [lstrip].
  destruct (is_space c) eqn:E; [exact IH|]. right. now exists c, s.
Qed.

Lemma lstrip_suffix (s : str) : exists p, s = p ++ lstrip s.
Proof.
  induction s as [|c s [p IH]]; [now exists []|]. cbn [lstrip].
  destruct (is_space c); [|now exists []].
  exists (c :: p). cbn [app]. now rewrite <- IH.
Qed.

Lemma strip_strip (s : str) : strip (strip s) = strip s.
Proof.
  destruct (lstrip_head (rstrip s)) as [E|(c & t & E & Hc)].
  - change (strip s) with (lstrip (rstrip s)). rewrite E. reflexivity.
  - destruct (lstrip_head (rev s)) as [E'|(e & u & E' & He)].
    + unfold rstrip in E. rewrite E' in E. discriminate.
    + assert (Hr : rstrip s = rev u ++ [e]).
      { unfold rstrip. rewrite E'. reflexivity. }
      destruct (lstrip_suffix (rstrip s)) as [p Hp].
      change (strip s) with (lstrip (rstrip s)). rewrite E.
      apply (@strip_id (c :: t) c e); [reflexivity | assumption | | assumption].
      assert (Hl : last_opt None (rstrip s) = Some e).
      { rewrite Hr, last_opt_app. reflexivity. }
      rewrite Hp, E, last_opt_app in Hl. exact Hl.
Qed.

(** ** E-mail addresses *)

Lemma Forall_skipn_keep {A : Type} (P : A -> Prop) (n : nat) (l : list A) :
  Forall P l -> Forall P (skipn n l).
Proof.
  revert l; induction n as [|n IH]; intros l H; [assumption|].
  destruct H; simpl; auto.
Qed.

Lemma no_dot_ahead (u : str) :
  Forall (fun c => is_alpha c = true) u ->
  prefix_len (is_char ".") (cap (Some 1) u) = 0.
Proof.
  intros [|c u' Hc _]; [reflexivity|].
  cbn [cap firstn prefix_len]. now rewrite alpha_not_dot.
Qed.

Lemma email_match (l h t : str) :
  email_shape l h t ->
  match_here patterns_email None (email_of l h t) = Some (length (email_of l h t)).
Proof.
  intros [(c & l' & El & Hc) Hl Hh Fh Ht Ft]. unfold email_of.
  assert (1 <= length l) by (rewrite El; simpl; lia).
  pose proof (nonempty_length Hh).
  etransitivity.
  - unfold patterns_email, one, plus.
    rewrite match_boundary
      by (rewrite El; unfold at_boundary; cbn [app hd_error word_opt];
          now rewrite Hc).
    take l. { now apply prefix_len_cap_stop. }
    take_all (lit "@").
    eapply (@match_rep_giveback _ _ _ _ h (lit "." ++ t)).
    + lia.
    + apply Forall_app. split; [assumption|].
      constructor; [reflexivity|].
      eapply Forall_impl; [|exact Ft]. apply alpha_email_domain.
    + take_all (lit ".").
      eapply match_rep_rest; [lia | assumption | exact I |].
      destruct (@last_opt_Forall _ t (Some "."%char)
                  ltac:(destruct t; simpl in *; [lia | discriminate]) Ft)
        as (e & -> & He).
      rewrite match_boundary; [reflexivity|].
      unfold at_boundary. cbn [word_opt hd_error]. now rewrite alpha_word.
    + intros j p Hj1 Hj2. apply match_rep_short.
      destruct j as [|i]; [lia|].
      cbn [lit list_ascii_of_string app skipn].
      rewrite no_dot_ahead; [lia|]. now apply Forall_skipn_keep.
  - f_equal. rewrite !length_app. cbn [length lit list_ascii_of_string]. lia.
Qed.

Lemma email_strip (l h t : str) :
  email_shape l h t -> strip (email_of l h t) = email_of l h t.
Proof.
  intros [(c & l' & El & Hc) Hl Hh Fh Ht Ft]. unfold email_of.
  destruct (@last_opt_Forall _ t (last_opt None (l ++ lit "@" ++ h ++ lit "."))
              ltac:(destruct t; simpl in *; [lia | discriminate]) Ft)
    as (e & E & He).
  eapply (@strip_id _ c e).
  - now rewrite El.
  - now apply word_not_space.
  - rewrite <- E, !last_opt_app. reflexivity.
  - now apply alpha_not_space.
Qed.

Lemma email_parts (l h t : str) :
  email_shape l h t ->
  split_on "@" (email_of l h t) = [l; h ++ lit "." ++ t].
Proof.
  intros [_ Hl _ Fh _ Ft]. unfold email_of.
  change (lit "@" ++ ?x) with ("@"%char :: x).
  rewrite split_on_app.
  - rewrite split_on_none; [reflexivity|].
    intros Hin. apply in_app_or in Hin. destruct Hin as [Hin|Hin].
    + rewrite Forall_forall in Fh. exact (email_domain_not_at (Fh _ Hin) eq_refl).
    + destruct Hin as [Hin|Hin]; [discriminate|].
      rewrite Forall_forall in Ft. exact (alpha_not_at (Ft _ Hin) eq_refl).
  - intros Hin. rewrite Forall_forall in Hl.
    exact (email_local_not_at (Hl _ Hin) eq_refl).
Qed.

(** The mask of a value that is an e-mail address. *)
Lemma email_redact (l h t : str) :
  email_shape l h t ->
  redact_text (email_of l h t) (lit "email")
  = Some ((if 3 <? length l then firstn 3 l else [])
          ++ lit "XXX@" ++ h ++ lit "." ++ t).
Proof.
  intros H. unfold redact_text.
  assert (Hne : email_of l h t <> []).
  { destruct H as [(c & l' & -> & _) _ _ _ _ _]. discriminate. }
  rewrite (proj2 (is_empty_false _) Hne), email_strip by assumption.
  change (str_eqb (lit "email") (lit "phone")) with false.
  change (str_eqb (lit "email") (lit "aadhar")) with false.
  change (str_eqb (lit "email") (lit "passport")) with false.
  change (str_eqb (lit "email") (lit "upi")) with false.
  change (str_eqb (lit "email") (lit "email")) with true. cbv iota.
  apply sub_match_all; [reflexivity | assumption | now apply email_match |].
  unfold redact_email. rewrite email_parts by assumption.
  cbn [nth_error bind]. now destruct (3 <? length l).
Qed.

Lemma is_email_shape_spec (l h t : str) :
  is_email_shape l h t = true -> email_shape l h t.
Proof.
  unfold is_email_shape.
  rewrite !andb_true_iff, negb_true_iff, is_empty_false, !forallb_Forall,
    Nat.leb_le.
  intros [[[[[H1 H2] H3] H4] H5] H6]. constructor; auto.
  destruct l as [|c l']; [discriminate|]. now exists c, l'.
Qed.

(** * The examples of the specification *)

Example phone_example :
  analyze_record [field "phone" "9876543210"]
  = Some (true, [field "phone" "98XXXXXX10"]).
Proof. vm_compute. reflexivity. Qed.

Example name_and_email_example :
  analyze_record [field "name" "Rahul Sharma"; field "email" "rahul@x.com"]
  = Some (true, [field "name" "RXXX SXXX"; field "email" "rahXXX@x.com"]).
Proof. vm_compute. reflexivity. Qed.

Example aadhar_example :
  analyze_record [field "aadhar" "234567890123"]
  = Some (true, [field "aadhar" "XXXXXXXX0123"]).
Proof. vm_compute. reflexivity. Qed.

Example city_example :
  analyze_record [field "city" "Mumbai"] = Some (false, [field "city" "Mumbai"]).
Proof. vm_compute. reflexivity. Qed.

Example upi_example :
  analyze_record [field "upi_id" "john.doe@okaxis"]
  = Some (true, [field "upi_id" "johXXX@okaxis"]).
Proof. vm_compute. reflexivity. Qed.

(** * The claims of the specification *)

Lemma distinct_NoDup (ks : list str) : distinct ks = true -> NoDup ks.
Proof.
  induction ks as [|k ks IH]; simpl; [constructor|].
  rewrite andb_true_iff, negb_true_iff, str_in_not_In.
  intros [H1 H2]. constructor; auto.
Qed.

(** ** C1: the redaction of the combinatorial buckets *)

(** C1, as stated, fails: with the Address and the Email bucket non-empty the
    field [city] of the Address bucket comes back as it went in, while the
    field of the Email bucket is masked. *)
Lemma address_field_not_redacted :
  combinatorial_count
    (Buckets [] [lit "email"] [lit "city"] [] []) = 2
  /\ option_map combinatorial_elements (scan city_and_email)
     = Some (Buckets [] [lit "email"] [lit "city"] [] [])
  /\ analyze_record city_and_email
     = Some (true, [field "city" "Mumbai"; field "email" "XXX@x.com"]).
Proof. vm_compute. repeat split. Qed.

(** C1, amended: in a record with distinct keys where two buckets or more are
    non-empty after the scan, a field of the Name or the Email bucket
    comes back as [redact_text] of its value after the scan, with the tag of
    its bucket; a field of the DeviceId or IpAddress bucket as the sentinel
    of its bucket; a field of the Address bucket keeps its value after the
    scan. *)
Theorem combinatorial_redaction (data : dict) (k : str) (v : value) (ty : str) :
  NoDup (keys data) -> 2 <= count data -> In (k, v) data ->
  field_bucket data (k, v) = Some ty ->
  exists rd m,
    analyze_record data = Some (true, rd)
    /\ dict_get rd k = Some (VStr m)
    /\ let s := scan_value k (strip (py_str v)) in
       (ty = lit "name" -> redact_text s (lit "name") = Some m)
       /\ (ty = lit "email" -> redact_text s (lit "email") = Some m)
       /\ (ty = lit "address" -> m = s)
       /\ (ty = lit "device_id" -> m = lit "[REDACTED_DEVICE_ID]")
       /\ (ty = lit "ip_address" -> m = lit "[REDACTED_IP_ADDRESS]").
Proof.
  intros Hnd Hc Hin Hb.
  pose proof (@dict_get_redacted data (k, v) Hnd Hin) as Hget.
  apply Nat.leb_le in Hc. unfold final in Hget. rewrite Hc, Hb in Hget.
  assert (Hs : scan_entry (k, v) = VStr (scan_value k (strip (py_str v)))).
  { unfold field_bucket, scan_entry in *. cbn [fst snd] in *.
    destruct (none_or_empty v); [discriminate | reflexivity]. }
  rewrite Hs in Hget. cbn [fst] in Hget.
  exists (redacted data).
  match type of Hget with _ = Some ?x =>
    exists (py_str x)
  end.
  split; [|split].
  - rewrite analyze_record_spec by assumption. unfold verdict.
    now rewrite Hc, orb_true_r.
  - rewrite Hget. f_equal. unfold upd.
    repeat match goal with |- context [if ?b then _ else _] => destruct b end;
      reflexivity.
  - apply field_bucket_names in Hb. simpl in Hb.
    repeat (destruct Hb as [<-|Hb];
            [cbn; repeat split; intros; try discriminate;
             rewrite ?redact_text_mask; reflexivity|]).
    contradiction.
Qed.

Lemma combinatorial_redaction_witness :
  exists rd m,
    analyze_record city_and_email = Some (true, rd)
    /\ dict_get rd (lit "email") = Some (VStr m)
    /\ redact_text (lit "ab@x.com") (lit "email") = Some m.
Proof.
  destruct (@combinatorial_redaction city_and_email (lit "email")
              (VStr (lit "ab@x.com")) (lit "email"))
    as (rd & m & H1 & H2 & _ & H3 & _).
  - apply distinct_NoDup. vm_compute. reflexivity.
  - vm_compute. lia.
  - simpl. right. left. reflexivity.
  - vm_compute. reflexivity.
  - exists rd, m. repeat split; [exact H1 | exact H2 | exact (H3 eq_refl)].
Defined.

(** ** C2: payment handles and e-mail addresses *)

(** C2: the code departs from the claim.  The payment-handle pattern is
    searched for inside the value and ends at a word boundary, so it matches
    [rahul@gmail] in [rahul@gmail.com]: the detector fires on an ordinary
    e-mail address, the record is flagged and the field is masked. *)
Theorem email_taken_for_payment_handle :
  is_upi_id (lit "rahul@gmail.com") = true
  /\ analyze_record email_alone
     = Some (true, [field "email" "rahXXX@gmail.com"]).
Proof. vm_compute. split; reflexivity. Qed.

(** It does so on every address [l@h.t] whose local part and first domain
    label are in the classes of the pattern. *)
Lemma upi_fires_on_email (l h t : str) :
  is_email_shape l h t = true ->
  forallb upi_local l = true -> 2 <= length l <= 256 ->
  forallb is_alpha h = true -> 2 <= length h <= 64 ->
  is_upi_id (l ++ lit "@" ++ h ++ lit "." ++ t) = true.
Proof.
  intros Hshape Fl Ll Fh Lh. apply is_email_shape_spec in Hshape.
  apply forallb_Forall in Fl, Fh.
  assert (Hne : email_of l h t <> []).
  { destruct Hshape as [(c & l' & -> & _) _ _ _ _ _]. discriminate. }
  change (l ++ lit "@" ++ h ++ lit "." ++ t) with (email_of l h t).
  unfold is_upi_id.
  rewrite (proj2 (is_empty_false _) Hne), email_strip by assumption.
  assert (Hm : match_here patterns_upi None (email_of l h t)
               = Some (length l + (1 + (length h + 0)))).
  { destruct Hshape as [(c & l' & El & Hc) _ Hh _ _ _]. unfold email_of.
    unfold patterns_upi, one.
    rewrite match_boundary
      by (rewrite El; unfold at_boundary; cbn [app hd_error word_opt];
          now rewrite Hc).
    take l. { apply prefix_len_cap_stop; [assumption | reflexivity | lia]. }
    take_all (lit "@").
    take h. { apply prefix_len_cap_stop; [assumption | reflexivity | lia]. }
    destruct (@last_opt_Forall _ h (Some "@"%char) Hh Fh) as (e & -> & He).
    rewrite match_boundary; [reflexivity|].
    unfold at_boundary. cbn [word_opt hd_error app lit list_ascii_of_string].
    now rewrite alpha_word. }
  unfold search. destruct (email_of l h t); [congruence|].
  cbn [search_from]. now rewrite Hm.
Qed.

(** The example of the specification, whose domain label has one letter, is
    not matched. *)
Example email_with_short_label :
  is_upi_id (lit "rahul@x.com") = false
  /\ analyze_record [field "email" "rahul@x.com"]
     = Some (false, [field "email" "rahul@x.com"]).
Proof. vm_compute. split; reflexivity. Qed.

(** ** C3: the verdict *)

(** The keys of a bucket after the scan are the keys of the fields the scan
    collects into it. *)
Lemma bucket_scan_iff (data : dict) (st : state) (ty k : str) :
  scan data = Some st -> In ty bucket_names ->
  (In k (bucket (combinatorial_elements st) ty) <->
   exists v, In (k, v) data /\ field_bucket data (k, v) = Some ty).
Proof.
  intros Hst Hty. destruct (scan_spec data) as (st' & Hst' & _ & _ & Hb).
  assert (st' = st) by congruence. subst st'.
  rewrite (Hb ty Hty). unfold members. rewrite in_map_iff. split.
  - intros ([k' v] & <- & Hin). apply filter_In in Hin. destruct Hin as [Hin Hf].
    exists v. split; [assumption|]. unfold in_bucket in Hf. cbn [fst].
    destruct (field_bucket data (k', v)) as [t|]; [|discriminate].
    apply str_eqb_eq in Hf. now subst.
  - intros (v & Hin & Hf). exists (k, v). split; [reflexivity|].
    apply filter_In. split; [assumption|]. unfold in_bucket.
    rewrite Hf. apply str_eqb_refl.
Qed.

Lemma bucket_nonempty_iff (data : dict) (st : state) (ty : str) :
  scan data = Some st -> In ty bucket_names ->
  (bucket (combinatorial_elements st) ty <> [] <->
   exists k v, In (k, v) data /\ field_bucket data (k, v) = Some ty).
Proof.
  intros Hst Hty. split.
  - intros Hne. destruct (bucket (combinatorial_elements st) ty) as [|k l] eqn:E;
      [congruence|].
    exists k. apply (@bucket_scan_iff data st ty k Hst Hty). rewrite E. now left.
  - intros (k & v & Hin & Hb) E.
    assert (Hk : In k (bucket (combinatorial_elements st) ty)).
    { apply (@bucket_scan_iff data st ty k Hst Hty). now exists v. }
    rewrite E in Hk. contradiction.
Qed.

(** Two entries or more pass a test exactly when two different ones do. *)
Lemma two_pass_iff (p : str -> bool) (l : list str) :
  NoDup l ->
  (2 <= length (filter p l) <->
   exists x y, In x l /\ In y l /\ x <> y /\ p x = true /\ p y = true).
Proof.
  intros Hnd. assert (Hf : NoDup (filter p l)) by now apply NoDup_filter.
  split.
  - intros Hlen. destruct (filter p l) as [|x [|y t]] eqn:E; simpl in Hlen; try lia.
    assert (Hx : In x (filter p l)) by (rewrite E; now left).
    assert (Hy : In y (filter p l)) by (rewrite E; right; now left).
    apply filter_In in Hx, Hy. exists x, y. repeat split; try tauto.
    intros ->. inversion Hf as [|? ? Hnin _]. apply Hnin. now left.
  - intros (x & y & Hx & Hy & Hne & Px & Py).
    assert (Ix : In x (filter p l)) by (apply filter_In; tauto).
    assert (Iy : In y (filter p l)) by (apply filter_In; tauto).
    destruct (filter p l) as [|a [|b t]]; simpl in *; try lia; try tauto.
    destruct Ix as [<-|[]], Iy as [<-|[]]. congruence.
Qed.

Lemma bucket_names_NoDup : NoDup bucket_names.
Proof. apply distinct_NoDup. vm_compute. reflexivity. Qed.

(** C3: [has_pii] is true if and only if a standalone category fires, by key
    or by value, on a field that is neither [None] nor the empty string, or
    two different buckets among the five are non-empty after the scan; a
    bucket is non-empty exactly when the scan collects some field of the
    record into it. *)
Theorem has_pii_iff (data : dict) :
  exists st hp rd,
    scan data = Some st
    /\ analyze_record data = Some (hp, rd)
    /\ (hp = true <->
        (exists k v, In (k, v) data /\ none_or_empty v = false
                     /\ fires k (strip (py_str v)) = true)
        \/ (exists ty1 ty2,
              In ty1 bucket_names /\ In ty2 bucket_names /\ ty1 <> ty2
              /\ bucket (combinatorial_elements st) ty1 <> []
              /\ bucket (combinatorial_elements st) ty2 <> []))
    /\ (forall ty, In ty bucket_names ->
          (bucket (combinatorial_elements st) ty <> [] <->
           exists k v, In (k, v) data /\ field_bucket data (k, v) = Some ty)).
Proof.
  destruct (scan_spec data) as (st & Hst & _ & _ & Hb).
  destruct (analyze_record_verdict data) as (rd & Hrd).
  exists st, (verdict data), rd. split; [assumption|]. split; [assumption|].
  split; [|intros ty Hty; now apply bucket_nonempty_iff].
  unfold verdict. rewrite orb_true_iff, Nat.leb_le, existsb_exists.
  assert (Hf : (exists x, In x data /\ field_fires x = true) <->
               (exists k v, In (k, v) data /\ none_or_empty v = false
                            /\ fires k (strip (py_str v)) = true)).
  { unfold field_fires. split.
    - intros ([k v] & Hin & H). apply andb_true_iff in H. destruct H as [H1 H2].
      apply negb_true_iff in H1. now exists k, v.
    - intros (k & v & Hin & H1 & H2). exists (k, v). split; [assumption|].
      cbn [fst snd]. now rewrite H1, H2. }
  assert (Hc : 2 <= count data <->
               (exists ty1 ty2,
                  In ty1 bucket_names /\ In ty2 bucket_names /\ ty1 <> ty2
                  /\ bucket (combinatorial_elements st) ty1 <> []
                  /\ bucket (combinatorial_elements st) ty2 <> [])).
  { unfold count. rewrite (@two_pass_iff _ bucket_names bucket_names_NoDup).
    split; intros (x & y & Hx & Hy & Hne & Px & Py); exists x, y.
    - rewrite negb_true_iff, is_empty_false in Px, Py.
      rewrite (Hb x Hx), (Hb y Hy). tauto.
    - rewrite !negb_true_iff, !is_empty_false.
      rewrite (Hb x Hx) in Px. rewrite (Hb y Hy) in Py. tauto. }
  tauto.
Qed.

(** ** C4: the Name bucket *)

(** C4, as stated, fails: a value of the shape Firstname Lastname under the
    key [bio] is not collected into the Name bucket. *)
Lemma bio_not_collected :
  extract_names (lit "Rahul Sharma") = [lit "Rahul Sharma"]
  /\ option_map (fun st => b_name (combinatorial_elements st))
                (scan [field "bio" "Rahul Sharma"]) = Some [].
Proof. vm_compute. split; reflexivity. Qed.

Lemma bucket_of_name (data : dict) (k s : str) :
  bucket_of data k s = Some (lit "name") <->
  (k = lit "name" /\ extract_names s <> [])
  \/ ((k = lit "first_name" \/ k = lit "last_name")
      /\ dict_has data (lit "name") = false).
Proof.
  unfold bucket_of.
  destruct (str_eqb k (lit "name")) eqn:En.
  - apply str_eqb_eq in En. subst k. cbn [orb].
    change (str_in (lit "name") [lit "first_name"; lit "last_name"]) with false.
    rewrite orb_false_r.
    destruct (extract_names s) as [|n ns]; cbn [is_empty negb].
    + split; [discriminate|]. intros [[_ H]|[[H|H] _]]; [congruence | |];
        discriminate.
    + split; [|reflexivity]. intros _. left. split; [reflexivity|discriminate].
  - apply str_eqb_neq in En. cbn [orb].
    destruct (str_in k [lit "first_name"; lit "last_name"]) eqn:Ef.
    + apply str_in_In in Ef. simpl in Ef.
      assert (Hk : k = lit "first_name" \/ k = lit "last_name")
        by (destruct Ef as [<-|[<-|[]]]; auto).
      destruct (dict_has data (lit "name")); cbn [negb andb].
      * split; [|intros [[? _]|[_ ?]]; [contradiction|discriminate]].
        destruct (str_eqb k (lit "email") || is_email s); [discriminate|].
        destruct Hk as [-> | ->]; discriminate.
      * rewrite orb_true_r. split; [|reflexivity]. intros _. right. auto.
    + apply str_in_not_In in Ef. cbn [andb].
      split.
      * repeat match goal with
               | |- context [if ?b then _ else _] => destruct b eqn:?
               end; try discriminate.
        intros [= ->]. now elim En.
      * intros [[? _]|[[->| ->] _]]; [contradiction| |]; elim Ef; simpl; auto.
Qed.

(** The scan for names does not go back over a run it has found: in
    [New Rahul Sharma] it finds [New Rahul], which the stoplist rejects, and
    never [Rahul Sharma]; the key [name] is not collected. *)
Lemma overlapped_run_not_found :
  findall name_pattern (lit "New Rahul Sharma") = [lit "New Rahul"]
  /\ extract_names (lit "New Rahul Sharma") = []
  /\ option_map (fun st => b_name (combinatorial_elements st))
                (scan [field "name" "New Rahul Sharma"]) = Some [].
Proof. vm_compute. repeat split. Qed.

(** The names of a stripped value: some run that the scan finds is two
    capitalized words outside the stoplist. *)
Lemma extract_names_some (s : str) :
  extract_names (strip s) <> [] <->
  exists w1 sp w2,
    In (w1 ++ sp ++ w2) (findall name_pattern (strip s))
    /\ capitalized w1 /\ capitalized w2 /\ spaces sp
    /\ str_in (lower w1) stoplist = false
    /\ str_in (lower w2) stoplist = false.
Proof.
  rewrite extract_names_filter, strip_strip. split.
  - intros Hne.
    destruct (filter keep_name (findall name_pattern (strip s))) as [|m l] eqn:E;
      [congruence|].
    assert (Hin : In m (filter keep_name (findall name_pattern (strip s))))
      by (rewrite E; now left).
    apply filter_In in Hin. destruct Hin as [Hin Hk].
    destruct (findall_name_In _ _ Hin) as (w1 & sp & w2 & -> & H1 & H2 & Hsp).
    rewrite keep_name_two in Hk by assumption.
    apply negb_true_iff, orb_false_iff in Hk.
    exists w1, sp, w2. tauto.
  - intros (w1 & sp & w2 & Hin & H1 & H2 & Hsp & S1 & S2) E.
    assert (Hf : In (w1 ++ sp ++ w2)
                    (filter keep_name (findall name_pattern (strip s)))).
    { apply filter_In. split; [assumption|].
      rewrite keep_name_two by assumption. now rewrite S1, S2. }
    rewrite E in Hf. contradiction.
Qed.

(** C4, amended: the key of a field is collected into the Name bucket exactly
    when the field is neither [None] nor empty and either its key is [name]
    and the scan of its stripped value for the name pattern ([findall]: from
    left to right, without overlap) finds a run of two capitalized words
    neither of which is in the stoplist, or its key is [first_name] or
    [last_name] and the record has no key [name]; a value of that shape under
    another key is not collected. *)
Theorem name_bucket_iff (data : dict) (k : str) :
  exists st,
    scan data = Some st
    /\ (In k (b_name (combinatorial_elements st)) <->
        exists v, In (k, v) data /\ none_or_empty v = false
          /\ ((k = lit "name"
               /\ exists w1 sp w2,
                    In (w1 ++ sp ++ w2)
                       (findall name_pattern (strip (py_str v)))
                    /\ capitalized w1 /\ capitalized w2 /\ spaces sp
                    /\ str_in (lower w1) stoplist = false
                    /\ str_in (lower w2) stoplist = false)
              \/ ((k = lit "first_name" \/ k = lit "last_name")
                  /\ dict_has data (lit "name") = false))).
Proof.
  destruct (scan_spec data) as (st & Hst & _ & _ & Hb).
  exists st. split; [assumption|].
  specialize (Hb (lit "name") (or_introl eq_refl)).
  change (bucket (combinatorial_elements st) (lit "name"))
    with (b_name (combinatorial_elements st)) in Hb.
  rewrite Hb. unfold members. rewrite in_map_iff.
  split.
  - intros ([k' v] & <- & Hin). apply filter_In in Hin. destruct Hin as [Hin Hf].
    exists v. split; [assumption|]. unfold in_bucket, field_bucket in Hf.
    cbn [fst snd] in *. destruct (none_or_empty v); [discriminate|].
    split; [reflexivity|]. rewrite <- extract_names_some. apply bucket_of_name.
    destruct (bucket_of data k' (strip (py_str v))) as [t|]; [|discriminate].
    apply str_eqb_eq in Hf. now subst.
  - intros (v & Hin & Hne & H). exists (k, v). split; [reflexivity|].
    apply filter_In. split; [assumption|]. unfold in_bucket, field_bucket.
    cbn [fst snd]. rewrite Hne. rewrite <- extract_names_some in H.
    apply bucket_of_name in H. rewrite H. reflexivity.
Qed.

(** ** C5: the stoplist *)

(** C5, as stated, fails: in [York Smith] the word [Smith] is outside the
    stoplist, the pattern matches the run, and the run is not kept. *)
Lemma york_smith_not_a_name :
  findall name_pattern (lit "York Smith") = [lit "York Smith"]
  /\ str_in (lower (lit "Smith")) stoplist = false
  /\ extract_names (lit "York Smith") = [].
Proof. vm_compute. repeat split. Qed.

(** A value that is two capitalized words and nothing else. *)
Lemma two_words_value (w1 w2 sp : str) :
  is_capitalized w1 = true -> is_capitalized w2 = true -> is_blank sp = true ->
  extract_names (w1 ++ sp ++ w2)
  = if str_in (lower w1) stoplist || str_in (lower w2) stoplist
    then [] else [w1 ++ sp ++ w2].
Proof.
  intros H1 H2 H3.
  apply extract_names_two;
    auto using is_capitalized_spec, is_blank_spec.
Qed.

(** C5, amended: in any value, a run that the scan for the name pattern
    finds is two capitalized words and the whitespace between them, and it
    is detected as a name exactly when neither word is in the stoplist,
    whatever the case: one word of the stoplist is enough to leave it out. *)
Theorem found_run_kept_iff (text m : str) :
  In m (findall name_pattern (strip text)) ->
  exists w1 sp w2,
    m = w1 ++ sp ++ w2
    /\ capitalized w1 /\ capitalized w2 /\ spaces sp
    /\ (In m (extract_names text) <->
        str_in (lower w1) stoplist = false
        /\ str_in (lower w2) stoplist = false).
Proof.
  intros Hin.
  destruct (findall_name_In _ _ Hin) as (w1 & sp & w2 & E & H1 & H2 & Hsp).
  exists w1, sp, w2. do 4 (split; [assumption|]).
  rewrite extract_names_filter, filter_In, E, keep_name_two by assumption.
  rewrite <- E, negb_true_iff, orb_false_iff. tauto.
Qed.

Lemma found_run_kept_iff_witness :
  In (lit "Rahul Sharma")
     (findall name_pattern (strip (lit " met Rahul Sharma, then York Smith ")))
  /\ exists w1 sp w2,
       lit "Rahul Sharma" = w1 ++ sp ++ w2
       /\ capitalized w1 /\ capitalized w2 /\ spaces sp
       /\ (In (lit "Rahul Sharma")
              (extract_names (lit " met Rahul Sharma, then York Smith ")) <->
           str_in (lower w1) stoplist = false
           /\ str_in (lower w2) stoplist = false).
Proof.
  split.
  - vm_compute. left. reflexivity.
  - apply (@found_run_kept_iff (lit " met Rahul Sharma, then York Smith ")
                               (lit "Rahul Sharma")).
    vm_compute. left. reflexivity.
Defined.

(** ** C6: the fields that contribute to no detection *)

(** C6, as stated, fails: no category fires on the two fields and no bucket
    takes them, yet the whitespace around the first value is gone and the
    integer comes back as a string. *)
Lemma value_stripped_and_stringified :
  existsb field_fires note_and_age = false
  /\ map (field_bucket note_and_age) note_and_age = [None; None]
  /\ analyze_record note_and_age
     = Some (false, [(lit "note", VStr (lit "hi")); (lit "age", VStr (lit "42"))]).
Proof. vm_compute. repeat split. Qed.

(** C6, amended: in a record with distinct keys, a field on which no
    standalone category fires and that is not masked with its bucket (fewer
    than two buckets are non-empty, or the field is in no bucket or in the
    Address bucket) comes back as it is if it is [None] or the empty string,
    and else as the string of its value without the whitespace around it. *)
Theorem untouched_field (data : dict) (k : str) (v : value) :
  NoDup (keys data) -> In (k, v) data ->
  field_fires (k, v) = false ->
  count data < 2 \/ field_bucket data (k, v) = None
  \/ field_bucket data (k, v) = Some (lit "address") ->
  exists hp rd,
    analyze_record data = Some (hp, rd)
    /\ dict_get rd k
       = Some (if none_or_empty v then v else VStr (strip (py_str v))).
Proof.
  intros Hnd Hin Hf Hb. exists (verdict data), (redacted data).
  split; [now apply analyze_record_spec|].
  pose proof (@dict_get_redacted data (k, v) Hnd Hin) as Hget.
  cbn [fst] in Hget. rewrite Hget. clear Hget. f_equal.
  assert (Hs : scan_entry (k, v)
               = if none_or_empty v then v else VStr (strip (py_str v))).
  { unfold scan_entry, field_fires, scan_value, fires in *. cbn [fst snd] in *.
    destruct (none_or_empty v); [reflexivity|]. cbn [negb andb] in Hf.
    apply orb_false_iff in Hf. destruct Hf as [Hf ->].
    apply orb_false_iff in Hf. destruct Hf as [Hf ->].
    apply orb_false_iff in Hf. destruct Hf as [-> ->]. reflexivity. }
  destruct (2 <=? count data) eqn:C; [|assumption].
  apply Nat.leb_le in C. unfold final.
  destruct Hb as [Hb|[-> | ->]]; [lia|assumption|exact Hs].
Qed.

Lemma untouched_field_witness :
  exists hp rd,
    analyze_record note_and_age = Some (hp, rd)
    /\ dict_get rd (lit "note") = Some (VStr (lit "hi")).
Proof.
  apply (@untouched_field note_and_age (lit "note") (VStr (lit "  hi  "))).
  - apply distinct_NoDup. vm_compute. reflexivity.
  - simpl. left. reflexivity.
  - vm_compute. reflexivity.
  - left. vm_compute. lia.
Defined.

(** ** C7: the mask of an e-mail address with a short local part *)

(** C7, as stated, fails: the local part [ab] is not kept. *)
Lemma short_local_part_dropped :
  redact_text (lit "ab@x.com") (lit "email") = Some (lit "XXX@x.com")
  /\ lit "XXX@x.com" <> lit "abXXX@x.com".
Proof. split; [vm_compute; reflexivity | discriminate]. Qed.

(** C7, amended: for an e-mail address whose local part has three characters
    at most, the mask puts [XXX] in the place of the whole local part and
    keeps [@] and the domain. *)
Theorem email_mask_short_local (l h t : str) :
  is_email_shape l h t = true -> length l <= 3 ->
  redact_text (l ++ lit "@" ++ h ++ lit "." ++ t) (lit "email")
  = Some (lit "XXX@" ++ h ++ lit "." ++ t).
Proof.
  intros H Hl. apply is_email_shape_spec in H.
  change (l ++ lit "@" ++ h ++ lit "." ++ t) with (email_of l h t).
  rewrite (email_redact H).
  replace (3 <? length l) with false by (symmetry; apply Nat.ltb_ge; lia).
  reflexivity.
Qed.

Lemma email_mask_short_local_witness :
  redact_text (lit "ab" ++ lit "@" ++ lit "x" ++ lit "." ++ lit "com") (lit "email")
  = Some (lit "XXX@" ++ lit "x" ++ lit "." ++ lit "com").
Proof.
  apply (@email_mask_short_local (lit "ab") (lit "x") (lit "com")).
  - vm_compute. reflexivity.
  - vm_compute. lia.
Defined.

(** A longer local part keeps its first three characters. *)
Lemma email_mask_long_local (l h t : str) :
  is_email_shape l h t = true -> 3 < length l ->
  redact_text (l ++ lit "@" ++ h ++ lit "." ++ t) (lit "email")
  = Some (firstn 3 l ++ lit "XXX@" ++ h ++ lit "." ++ t).
Proof.
  intros H Hl. apply is_email_shape_spec in H.
  change (l ++ lit "@" ++ h ++ lit "." ++ t) with (email_of l h t).
  rewrite (email_redact H).
  replace (3 <? length l) with true by (symmetry; apply Nat.ltb_lt; lia).
  reflexivity.
Qed.

(** ** C8: the mask of a national identity number *)

(** C8, as stated, fails: with one of the two optional spaces the groups
    [2345] and [67890123] come back as three groups. *)
Lemma one_space_grouping_not_preserved :
  redact_text (lit "2345 67890123") (lit "aadhar") = Some (lit "XXXX XXXX 0123")
  /\ redact_text (lit "23456789 0123") (lit "aadhar") = Some (lit "XXXX XXXX 0123").
Proof. vm_compute. split; reflexivity. Qed.

(** C8, amended: for a number of twelve digits that begins with 2 to 9, the
    mask keeps the last four digits and puts [X] for the eight before them;
    written without a space the number comes back as one run, written in
    three groups with single spaces it comes back in three groups, and
    written with one of the two spaces it comes back in three groups as
    well. *)
Theorem aadhar_mask_grouping (d : ascii) (a b c : str) :
  in_range 50 57 d = true ->
  length a = 3 -> forallb is_digit a = true ->
  length b = 4 -> forallb is_digit b = true ->
  length c = 4 -> forallb is_digit c = true ->
  redact_text (d :: a ++ b ++ c) (lit "aadhar") = Some (lit "XXXXXXXX" ++ c)
  /\ redact_text (d :: a ++ lit " " ++ b ++ lit " " ++ c) (lit "aadhar")
     = Some (lit "XXXX XXXX " ++ c)
  /\ redact_text (d :: a ++ lit " " ++ b ++ c) (lit "aadhar")
     = Some (lit "XXXX XXXX " ++ c)
  /\ redact_text (d :: a ++ b ++ lit " " ++ c) (lit "aadhar")
     = Some (lit "XXXX XXXX " ++ c).
Proof.
  intros Hd La Fa Lb Fb Lc Fc.
  pose proof (@digits_of _ _ La Fa) as Ha.
  pose proof (@digits_of _ _ Lb Fb) as Hb.
  pose proof (@digits_of _ _ Lc Fc) as Hc.
  assert (N : blank_or_none []) by now left.
  assert (B : blank_or_none (lit " ")) by now right.
  repeat split.
  - apply (@aadhar_redact d a b c _ _ Hd Ha Hb Hc N N).
  - apply (@aadhar_redact d a b c _ _ Hd Ha Hb Hc B B).
  - apply (@aadhar_redact d a b c _ _ Hd Ha Hb Hc B N).
  - apply (@aadhar_redact d a b c _ _ Hd Ha Hb Hc N B).
Qed.

Lemma aadhar_mask_grouping_witness :
  redact_text (lit "234567890123") (lit "aadhar") = Some (lit "XXXXXXXX0123")
  /\ redact_text (lit "2345 6789 0123") (lit "aadhar")
     = Some (lit "XXXX XXXX 0123").
Proof.
  destruct (@aadhar_mask_grouping "2"%char (lit "345") (lit "6789") (lit "0123"))
    as (H1 & H2 & _); try (vm_compute; reflexivity).
  split; [exact H1 | exact H2].
Defined.

(** ** C9: the keys of the redacted record *)

(** C9: for a record with distinct keys, the redacted record has the keys of
    the record, in the same order. *)
Theorem keys_preserved (data : dict) :
  NoDup (keys data) ->
  exists hp rd, analyze_record data = Some (hp, rd) /\ keys rd = keys data.
Proof.
  intros Hnd. exists (verdict data), (redacted data).
  split; [now apply analyze_record_spec|].
  unfold redacted. apply keys_map_snd.
Qed.

Lemma keys_preserved_witness :
  exists hp rd,
    analyze_record city_and_email = Some (hp, rd)
    /\ keys rd = [lit "city"; lit "email"].
Proof.
  apply (@keys_preserved city_and_email).
  apply distinct_NoDup. vm_compute. reflexivity.
Defined.

(** ** C10: [redact_text] is total *)

(** C10, as stated, fails: a value of three spaces is masked to the empty
    string. *)
Lemma whitespace_masked_to_empty :
  redact_text (lit "   ") (lit "phone") = Some [].
Proof. vm_compute. reflexivity. Qed.

Lemma redact_text_blank (text entity_type : str) :
  strip text = [] -> redact_text text entity_type = Some [].
Proof.
  intros Hs. unfold redact_text. rewrite Hs.
  destruct text as [|c text]; [reflexivity|]. cbn [is_empty].
  repeat match goal with
         | |- (if ?b then _ else _) = _ => destruct b
         end; reflexivity.
Qed.

(** C10, amended: for every value and every entity type [redact_text] returns
    a result, and the result is the empty string exactly when the value has
    nothing but whitespace. *)
Theorem redact_text_total_nonempty (text entity_type : str) :
  exists r,
    redact_text text entity_type = Some r /\ (r = [] <-> strip text = []).
Proof.
  exists (mask text entity_type). split; [apply redact_text_mask|].
  split.
  - intros Hr. destruct (strip text) as [|c s] eqn:Hs; [reflexivity|].
    exfalso. apply (@redact_text_nonempty text entity_type (mask text entity_type)).
    + rewrite Hs. discriminate.
    + apply redact_text_mask.
    + assumption.
  - intros Hs. pose proof (redact_text_blank text entity_type Hs) as H.
    rewrite redact_text_mask in H. congruence.
Qed.

(** * Further properties of the code *)

(** ** The width of a match *)

Lemma match_here_min (r : regex) :
  forall prev s n, match_here r prev s = Some n -> min_len r <= n.
Proof.
  induction r as [|i r IH]; intros prev s n; cbn [match_here min_len].
  - intros [= <-]. lia.
  - destruct i as [cls lo hi | | |].
    + intros H. apply try_down_some in H.
      destruct H as (k & m & Hlo & _ & Hm & ->). apply IH in Hm. lia.
    + destruct (at_boundary prev s); [apply IH | discriminate].
    + destruct prev; [discriminate | apply IH].
    + destruct (at_end s); [apply IH | discriminate].
Qed.

Lemma prefix_len_cap_bound (cls : ascii -> bool) (h : nat) (s : str) :
  prefix_len cls (cap (Some h) s) <= h.
Proof.
  cbn [cap]. pose proof (prefix_len_le cls (firstn h s)) as H.
  rewrite length_firstn in H. lia.
Qed.

Lemma match_here_max (r : regex) :
  forall prev s n M,
    match_here r prev s = Some n -> max_len r = Some M -> n <= M.
Proof.
  induction r as [|i r IH]; intros prev s n M; cbn [match_here max_len].
  - intros [= <-] [= <-]. lia.
  - destruct i as [cls lo hi | | |].
    + intros H HM. apply try_down_some in H.
      destruct H as (k & m & _ & Hk & Hm & ->).
      destruct hi as [h|]; [|discriminate].
      destruct (max_len r) as [M'|] eqn:E; [|discriminate].
      injection HM as <-. pose proof (prefix_len_cap_bound cls h s).
      specialize (IH _ _ _ _ Hm eq_refl). lia.
    + destruct (at_boundary prev s); [apply IH | discriminate].
    + destruct prev; [discriminate | apply IH].
    + destruct (at_end s); [apply IH | discriminate].
Qed.

(** A string shorter than the pattern holds no match. *)
Lemma search_short (r : regex) (s : str) :
  forall prev, length s < min_len r -> search_from r prev s = false.
Proof.
  induction s as [|c s IH]; intros prev Hlen; cbn [search_from].
  - destruct (match_here r prev []) as [n|] eqn:E; [|reflexivity].
    pose proof (match_here_min _ _ _ E).
    apply match_here_shape in E. simpl in *. lia.
  - destruct (match_here r prev (c :: s)) as [n|] eqn:E.
    + pose proof (match_here_min _ _ _ E).
      apply match_here_shape in E. simpl in *. lia.
    + apply IH. simpl in Hlen. lia.
Qed.

(** ** [sub] and [search] *)

(** Where [search] finds nothing, [sub] changes nothing. *)
Lemma sub_no_match (r : regex) (repl : str -> option str) (s : str) :
  forall prev, search_from r prev s = false ->
               sub_from r repl 0 prev s = Some s.
Proof.
  induction s as [|c s IH]; intros prev; cbn [search_from sub_from].
  - destruct (match_here r prev []); [discriminate | reflexivity].
  - destruct (match_here r prev (c :: s)); [discriminate|].
    intros H. now rewrite IH.
Qed.

Lemma sub_short (r : regex) (repl : str -> option str) (s : str) :
  length s < min_len r -> sub r repl s = Some s.
Proof. intros H. apply sub_no_match. now apply search_short. Qed.

(** A string as long as the shortest match is replaced as a whole or not at
    all. *)
Lemma sub_exact_width (r : regex) (repl : str -> option str) (s out : str) :
  existsb mandatory r = true -> s <> [] -> length s = min_len r ->
  repl s = Some out ->
  sub r repl s
  = match match_here r None s with
    | Some _ => Some out
    | None => Some s
    end.
Proof.
  intros Hr Hs Hlen Hout. destruct (match_here r None s) as [n|] eqn:E.
  - apply sub_match_all; auto.
    pose proof (match_here_min _ _ _ E).
    destruct (match_here_shape _ _ _ E) as [Hn _].
    now replace (length s) with n by lia.
  - destruct s as [|c s]; [congruence|].
    unfold sub. cbn [sub_from]. rewrite E.
    rewrite sub_no_match; [reflexivity|].
    apply search_short. simpl in Hlen. lia.
Qed.

(** A replacement as long as the match keeps the length of the string. *)
Lemma sub_from_length (r : regex) (repl : str -> option str) :
  (forall prev s n o, match_here r prev s = Some n ->
                      repl (firstn n s) = Some o -> length o = n) ->
  forall s skip prev out,
    skip <= length s -> sub_from r repl skip prev s = Some out ->
    length out + skip = length s.
Proof.
  intros Hrepl. induction s as [|c s IH]; intros skip prev out Hskip.
  - simpl in Hskip. assert (skip = 0) by lia. subst. cbn [sub_from].
    destruct (match_here r prev []) as [n|] eqn:E.
    + destruct (repl (firstn n [])) as [o|] eqn:R; [|discriminate].
      intros [= <-]. rewrite (Hrepl _ _ _ _ E R).
      apply match_here_shape in E. simpl in *. lia.
    + intros [= <-]. reflexivity.
  - destruct skip as [|k]; cbn [sub_from].
    + destruct (match_here r prev (c :: s)) as [n|] eqn:E.
      * destruct (repl (firstn n (c :: s))) as [o|] eqn:R; [|discriminate].
        destruct (sub_from r repl (n - 1) (Some c) s) as [rest|] eqn:S;
          [|discriminate].
        intros [= <-]. pose proof (Hrepl _ _ _ _ E R) as Ho.
        destruct (match_here_shape _ _ _ E) as [Hn _]. simpl in Hn.
        apply IH in S; [|lia]. rewrite !length_app, Ho.
        destruct n as [|n]; simpl in *; lia.
      * destruct (sub_from r repl 0 (Some c) s) as [rest|] eqn:S;
          [|discriminate].
        intros [= <-]. apply IH in S; [|lia]. simpl. lia.
    + intros H. apply IH in H; simpl in *; lia.
Qed.

Lemma sub_length (r : regex) (repl : str -> option str) (s out : str) :
  (forall prev s n o, match_here r prev s = Some n ->
                      repl (firstn n s) = Some o -> length o = n) ->
  sub r repl s = Some out -> length out = length s.
Proof.
  intros Hrepl H. unfold sub in H.
  apply (@sub_from_length r repl Hrepl) in H; lia.
Qed.

(** ** Phone numbers *)

Lemma length_lastn (n : nat) (s : str) : n <= length s -> length (lastn n s) = n.
Proof. intros H. unfold lastn. rewrite length_skipn. lia. Qed.

Lemma length_Xs (n : nat) : length (Xs n) = n.
Proof. apply repeat_length. Qed.

Lemma mask_phone_variation_length (m o : str) :
  4 <= length m -> mask_phone_variation m = Some o -> length o = length m.
Proof.
  intros H E. unfold mask_phone_variation in E.
  assert (Ho : o = firstn 2 m ++ Xs (length m - 4) ++ lastn 2 m) by congruence.
  rewrite Ho. clear E Ho.
  rewrite !length_app, length_firstn, length_Xs, length_lastn by lia. lia.
Qed.

Lemma mask_phone_length (m o : str) :
  length m = 10 -> mask_phone m = Some o -> length o = 10.
Proof.
  intros H E. unfold mask_phone in E.
  assert (Ho : o = firstn 2 m ++ Xs 6 ++ lastn 2 m) by congruence.
  rewrite Ho. clear E Ho.
  rewrite !length_app, length_firstn, length_Xs, length_lastn by lia. lia.
Qed.

Lemma length_match (r : regex) (prev : option ascii) (s : str) (n : nat) :
  match_here r prev s = Some n -> length (firstn n s) = n.
Proof.
  intros H. apply match_here_shape in H. rewrite length_firstn. lia.
Qed.

Lemma phone_variations_min : Forall (fun r => 4 <= min_len r) phone_variations.
Proof. repeat constructor; simpl; lia. Qed.

Lemma phone_variations_length (l : list regex) :
  Forall (fun r => 4 <= min_len r) l ->
  forall acc out,
    fold_left (fun acc pattern =>
                 do redacted <- acc; sub pattern mask_phone_variation redacted)
              l (Some acc) = Some out ->
    length out = length acc.
Proof.
  induction 1 as [|r l Hr _ IH]; intros acc out; cbn [fold_left bind].
  - now intros [= <-].
  - destruct (sub r mask_phone_variation acc) as [x|] eqn:E.
    + intros H. rewrite (IH _ _ H). revert E. apply sub_length.
      intros prev s n o Hm Ho.
      pose proof (match_here_min _ _ _ Hm) as Hmin.
      pose proof (length_match _ _ _ Hm) as Hl.
      rewrite <- Hl. apply mask_phone_variation_length; [lia | exact Ho].
    + now rewrite fold_left_bind_none.
Qed.

(** The phone mask keeps the length of the value: every span it replaces is
    replaced by as many characters. *)
Theorem phone_mask_keeps_length (text : str) :
  exists out,
    redact_text text (lit "phone") = Some out
    /\ length out = length (strip text).
Proof.
  exists (mask text (lit "phone")). split; [apply redact_text_mask|].
  pose proof (redact_text_mask text (lit "phone")) as H.
  revert H. generalize (mask text (lit "phone")). intros out.
  unfold redact_text. destruct text as [|c text]; [now intros [= <-]|].
  cbn [is_empty].
  change (str_eqb (lit "phone") (lit "phone")) with true. cbv iota.
  destruct (fold_left _ phone_variations _) as [x|] eqn:E; [|discriminate].
  cbn [bind]. intros H.
  apply (phone_variations_length phone_variations_min) in E. rewrite <- E.
  revert H. apply sub_length.
  intros prev s n o Hm Ho.
  pose proof (match_here_min _ _ _ Hm) as Hmin.
  pose proof (match_here_max _ _ _ Hm eq_refl) as Hmax.
  pose proof (length_match _ _ _ Hm) as Hl. simpl in Hmin, Hmax.
  assert (n = 10) by lia. subst n. now apply (@mask_phone_length (firstn 10 s)).
Qed.

Lemma digit_kept (c : ascii) :
  is_digit c = true -> negb (char_in "-()" c || is_space c) = true.
Proof. by_cases_on_char c. Qed.

Lemma digits_kept (d : str) :
  Forall (fun c => is_digit c = true) d ->
  filter (fun c => negb (char_in "-()" c || is_space c)) d = d.
Proof.
  induction 1 as [|c d Hc _ IH]; [reflexivity|].
  cbn [filter]. now rewrite (digit_kept _ Hc), IH.
Qed.

Lemma search_head (r : regex) (s : str) (n : nat) :
  match_here r None s = Some n -> search r s = true.
Proof. intros H. unfold search. destruct s; cbn [search_from]; now rewrite H. Qed.

Lemma ten_digits_match (d : str) :
  digits 10 d -> match_here patterns_phone None d = Some 10.
Proof.
  intros Hd. explicit_digits. unfold patterns_phone, exactly. boundary.
  change 10 with (10 + 0) at 3.
  eapply match_rep_rest; [cbn [length]; lia | all_in_class | cbn [length]; lia |].
  cbn [last_opt fold_left]. boundary. reflexivity.
Qed.

Lemma ten_digits_strip (d : str) : digits 10 d -> strip d = d.
Proof.
  intros Hd. explicit_digits.
  eapply strip_id; [reflexivity | | reflexivity |]; now apply digit_not_space.
Qed.

(** A value of ten digits is a phone number, and its mask keeps the first
    two and the last two digits around six [X]. *)
Theorem ten_digit_phone (d : str) :
  length d = 10 -> forallb is_digit d = true ->
  is_phone_number d = true
  /\ redact_text d (lit "phone")
     = Some (firstn 2 d ++ lit "XXXXXX" ++ lastn 2 d).
Proof.
  intros Hl Hf. pose proof (@digits_of _ _ Hl Hf) as Hd.
  pose proof (ten_digits_match Hd) as Hm.
  pose proof (ten_digits_strip Hd) as Hs.
  assert (Hne : is_empty d = false) by (destruct d; [discriminate | reflexivity]).
  split.
  - unfold is_phone_number. rewrite Hne, Hs.
    rewrite digits_kept by apply Hd. now rewrite (search_head _ _ Hm).
  - unfold redact_text. rewrite Hne, Hs.
    change (str_eqb (lit "phone") (lit "phone")) with true. cbv iota.
    unfold phone_variations. cbn [fold_left bind].
    rewrite sub_short by (rewrite Hl; simpl; lia). cbn [bind].
    rewrite sub_short by (rewrite Hl; simpl; lia). cbn [bind].
    assert (Hmask : mask_phone_variation d
                    = Some (firstn 2 d ++ lit "XXXXXX" ++ lastn 2 d)).
    { unfold mask_phone_variation. now rewrite Hl. }
    assert (Hd0 : d <> []) by (destruct d; [discriminate | congruence]).
    erewrite (@sub_exact_width _ _ d);
      [|reflexivity|exact Hd0|now rewrite Hl|exact Hmask].
    match goal with |- context [match_here ?r None d] =>
      destruct (match_here r None d) end; cbn [bind].
    + clear Hm Hs Hmask Hne Hl Hf Hd0. explicit_digits.
      cbn [firstn lastn length Nat.sub skipn app lit list_ascii_of_string].
      erewrite sub_exact_width; [|reflexivity|discriminate|reflexivity|reflexivity].
      unfold patterns_phone, exactly.
      rewrite match_boundary
        by (unfold at_boundary; cbn [hd_error word_opt];
            rewrite digit_word by assumption; reflexivity).
      rewrite match_rep_short; [reflexivity|].
      cbn [cap firstn prefix_len].
      repeat match goal with H : is_digit _ = true |- _ => rewrite H; clear H end.
      simpl. lia.
    + erewrite (@sub_exact_width _ _ d);
        [now rewrite Hm | reflexivity | exact Hd0 | now rewrite Hl | reflexivity].
Qed.

Lemma ten_digit_phone_witness :
  is_phone_number (lit "9876543210") = true
  /\ redact_text (lit "9876543210") (lit "phone") = Some (lit "98XXXXXX10").
Proof.
  apply (@ten_digit_phone (lit "9876543210")); vm_compute; reflexivity.
Defined.

Lemma digit_run_app (n : nat) (pre s : str) :
  digit_run n s = true -> digit_run n (pre ++ s) = true.
Proof.
  intros H. induction pre as [|c pre IH]; [assumption|].
  cbn [app digit_run]. rewrite IH. apply orb_true_r.
Qed.

Lemma digit_run_head (n : nat) (run rest : str) :
  Forall (fun c => is_digit c = true) run -> n <= length run ->
  digit_run n (run ++ rest) = true.
Proof.
  intros Hf Hn.
  assert (H : (n <=? prefix_len is_digit (run ++ rest)) = true).
  { apply Nat.leb_le. rewrite prefix_len_app by assumption. lia. }
  destruct (run ++ rest); cbn [digit_run]; now rewrite H.
Qed.

(** A match that holds [pre ++ run], with [run] ten digits or more, shows a
    run of ten digits in the string. *)
Lemma run_in_match (s pre run : str) (n : nat) :
  firstn n s = pre ++ run ->
  Forall (fun c => is_digit c = true) run -> 10 <= length run ->
  digit_run 10 s = true.
Proof.
  intros Hm Hf Hl. rewrite <- (firstn_skipn n s), Hm, <- app_assoc.
  apply digit_run_app. now apply digit_run_head.
Qed.

Lemma char_789_digit (c : ascii) : char_in "789" c = true -> is_digit c = true.
Proof. by_cases_on_char c. Qed.

Lemma char_9_digit (c : ascii) : is_char "9" c = true -> is_digit c = true.
Proof. by_cases_on_char c. Qed.

Lemma char_1_digit (c : ascii) : is_char "1" c = true -> is_digit c = true.
Proof. by_cases_on_char c. Qed.

Lemma Forall_digit_app (a b : str) :
  Forall (fun c => is_digit c = true) a ->
  Forall (fun c => is_digit c = true) b ->
  Forall (fun c => is_digit c = true) (a ++ b).
Proof. intros. apply Forall_app. now split. Qed.

(** Every phone pattern needs ten digits in a row. *)
Lemma phone_match_run (r : regex) (prev : option ascii) (s : str) (n : nat) :
  In r (patterns_phone :: phone_variations) ->
  match_here r prev s = Some n -> digit_run 10 s = true.
Proof.
  intros Hr Hm. apply match_here_shape in Hm. destruct Hm as [_ Hm].
  cbn [In phone_variations] in Hr.
  destruct Hr as [<-|[<-|[<-|[<-|[]]]]];
    cbn [shape patterns_phone one opt exactly] in Hm.
  - destruct Hm as (a & b & E & La & Fa & ->).
    rewrite app_nil_r in E.
    apply (@run_in_match s [] a n); [exact E | exact Fa | lia].
  - destruct Hm as (p & b0 & E0 & _ & _ & x9 & b1 & -> & _ & _
                    & x1 & b2 & -> & _ & _ & sp & b3 & -> & _ & _
                    & a1 & b4 & -> & L1 & F1 & a2 & b5 & -> & L2 & F2 & ->).
    apply (@run_in_match s (p ++ x9 ++ x1 ++ sp) (a1 ++ a2) n).
    + rewrite E0, app_nil_r, <- !app_assoc. reflexivity.
    + apply Forall_digit_app; [|assumption].
      eapply Forall_impl; [|exact F1]. apply char_789_digit.
    + rewrite length_app. lia.
  - destruct Hm as (x9 & b1 & E0 & _ & _ & x1 & b2 & -> & _ & _
                    & a1 & b4 & -> & L1 & F1 & a2 & b5 & -> & L2 & F2 & ->).
    apply (@run_in_match s (x9 ++ x1) (a1 ++ a2) n).
    + rewrite E0, app_nil_r, <- !app_assoc. reflexivity.
    + apply Forall_digit_app; [|assumption].
      eapply Forall_impl; [|exact F1]. apply char_789_digit.
    + rewrite length_app. lia.
  - destruct Hm as (a1 & b4 & E0 & L1 & F1 & a2 & b5 & -> & L2 & F2 & ->).
    apply (@run_in_match s [] (a1 ++ a2) n).
    + rewrite E0, app_nil_r. reflexivity.
    + apply Forall_digit_app; [|assumption].
      eapply Forall_impl; [|exact F1]. apply char_789_digit.
    + rewrite length_app. lia.
Qed.

Lemma phone_search_run (r : regex) (s : str) :
  In r (patterns_phone :: phone_variations) ->
  forall prev, digit_run 10 s = false -> search_from r prev s = false.
Proof.
  intros Hr. induction s as [|c s IH]; intros prev Hrun; cbn [search_from].
  - destruct (match_here r prev []) as [n|] eqn:E; [|reflexivity].
    apply (phone_match_run _ _ Hr) in E. congruence.
  - destruct (match_here r prev (c :: s)) as [n|] eqn:E.
    + apply (phone_match_run _ _ Hr) in E. congruence.
    + apply IH. cbn [digit_run] in Hrun. apply orb_false_iff in Hrun. tauto.
Qed.

(** The detector looks for ten digits after it has removed hyphens, spaces
    and parentheses; the mask looks in the value as it is.  A value whose
    digits are ten once the separators are gone, but never ten in a row, is
    detected as a phone number and comes back from the mask unchanged. *)
Theorem separated_phone_not_masked (text cleaned : str) :
  filter (fun c => negb (char_in "-()" c || is_space c)) (strip text) = cleaned ->
  length cleaned = 10 -> forallb is_digit cleaned = true ->
  digit_run 10 (strip text) = false ->
  is_phone_number text = true
  /\ redact_text text (lit "phone") = Some (strip text).
Proof.
  intros Hc Hl Hf Hrun.
  assert (Hne : is_empty text = false).
  { destruct text; [subst cleaned; discriminate Hl | reflexivity]. }
  split.
  - unfold is_phone_number. rewrite Hne, Hc.
    now rewrite (search_head _ _ (ten_digits_match (@digits_of _ _ Hl Hf))).
  - unfold redact_text. rewrite Hne.
    change (str_eqb (lit "phone") (lit "phone")) with true. cbv iota.
    unfold phone_variations. cbn [fold_left bind]. unfold sub.
    repeat (rewrite sub_no_match
              by (apply phone_search_run;
                  [cbn [In phone_variations]; tauto | exact Hrun]);
            cbn [bind]).
    reflexivity.
Qed.

Lemma separated_phone_not_masked_witness :
  is_phone_number (lit "987-654-3210") = true
  /\ redact_text (lit "987-654-3210") (lit "phone") = Some (lit "987-654-3210").
Proof.
  apply (@separated_phone_not_masked (lit "987-654-3210") (lit "9876543210"));
    vm_compute; reflexivity.
Defined.

Lemma match_here_boundary_eq (r : regex) (prev : option ascii) (s : str) :
  match_here (WordB :: r) prev s
  = if at_boundary prev s then match_here r prev s else None.
Proof. reflexivity. Qed.

Lemma match_here_first_char (cls : ascii -> bool) (lo : nat) (hi : option nat)
      (r : regex) (prev : option ascii) (s : str) (n : nat) :
  match_here (Rep cls (S lo) hi :: r) prev s = Some n ->
  exists c s', s = c :: s' /\ cls c = true.
Proof.
  intros H. apply match_here_shape in H. destruct H as [_ H].
  cbn [shape] in H. destruct H as (a & b & E & La & Fa & _).
  destruct a as [|c a]; [simpl in La; lia|].
  destruct s as [|c' s']; [now rewrite firstn_nil in E|].
  destruct n as [|n]; [discriminate|]. cbn [firstn app] in E.
  injection E as -> _. inversion Fa; subst. now exists c, s'.
Qed.

Lemma plus_not_word (c : ascii) : is_char "+" c = true -> is_word c = false.
Proof. by_cases_on_char c. Qed.

(** The pattern of the international form begins with a word boundary before
    the plus sign, and the plus sign is no word character: it matches only
    behind a word character, never at the start of a value or after a
    space. *)
Theorem plus_form_needs_word_before (prev : option ascii) (s : str) (n : nat) :
  match_here (nth 0 phone_variations []) prev s = Some n ->
  word_opt prev = true.
Proof.
  cbn [nth phone_variations]. rewrite match_here_boundary_eq.
  destruct (at_boundary prev s) eqn:B; [|discriminate].
  intros H. unfold one in H. apply match_here_first_char in H.
  destruct H as (c & s' & -> & Hc). apply plus_not_word in Hc.
  unfold at_boundary in B. cbn [hd_error word_opt] in B. rewrite Hc in B.
  now destruct (word_opt prev).
Qed.

Lemma plus_form_needs_word_before_witness :
  match_here (nth 0 phone_variations []) (Some "x"%char) (lit "+919876543210")
  = Some 13
  /\ word_opt (Some "x"%char) = true.
Proof.
  split; [vm_compute; reflexivity|].
  apply (@plus_form_needs_word_before (Some "x"%char) (lit "+919876543210") 13).
  vm_compute. reflexivity.
Defined.

(** At the start of a value the international form is found by the pattern
    of the bare prefix [91], behind the plus sign. *)
Example plus_form_at_start :
  match_here (nth 0 phone_variations []) None (lit "+919876543210") = None
  /\ redact_text (lit "+919876543210") (lit "phone") = Some (lit "+91XXXXXXXX10").
Proof. vm_compute. split; reflexivity. Qed.

(** ** A detector that does not fire, a mask that does not change *)

(** For the categories whose detector and mask search the same pattern, a
    value on which the detector does not fire comes back from the mask as
    its stripped form: a key that forces the category flags the record and
    leaves such a value as it is. *)
Theorem undetected_unchanged (ty : str) (det : str -> bool) (text : str) :
  In (ty, det) pattern_detectors -> det text = false ->
  redact_text text ty = Some (strip text).
Proof.
  intros Hin Hdet. unfold redact_text.
  destruct text as [|c text]; [reflexivity|]. cbn [is_empty].
  cbn [In pattern_detectors] in Hin.
  destruct Hin as [E|[E|[E|[E|[]]]]]; injection E as <- <-.
  - unfold is_aadhar_number in Hdet. cbn [is_empty] in Hdet.
    destruct (search patterns_aadhar (strip (c :: text))) eqn:S; [discriminate|].
    now apply sub_no_match.
  - unfold is_passport_number in Hdet. cbn [is_empty] in Hdet.
    now apply sub_no_match.
  - unfold is_upi_id in Hdet. cbn [is_empty] in Hdet.
    now apply sub_no_match.
  - unfold is_email in Hdet. cbn [is_empty] in Hdet.
    now apply sub_no_match.
Qed.

Lemma undetected_unchanged_witness :
  redact_text (lit " not issued ") (lit "passport") = Some (lit "not issued").
Proof.
  apply (@undetected_unchanged (lit "passport") is_passport_number
           (lit " not issued ")).
  - right. left. reflexivity.
  - vm_compute. reflexivity.
Defined.

(** ** Passport numbers *)

(** A value that is a letter and seven digits is a passport number, and its
    mask is the sentinel. *)
Theorem passport_value (c : ascii) (ds : str) :
  is_alpha c = true -> length ds = 7 -> forallb is_digit ds = true ->
  is_passport_number (c :: ds) = true
  /\ redact_text (c :: ds) (lit "passport") = Some (lit "[REDACTED_PASSPORT]").
Proof.
  intros Hc Hl Hf. pose proof (@digits_of _ _ Hl Hf) as Hd. clear Hl Hf.
  explicit_digits.
  match goal with |- is_passport_number ?v = _ /\ _ => set (v0 := v) end.
  assert (Hm : match_here patterns_passport None v0 = Some (length v0)).
  { etransitivity.
    - unfold patterns_passport, one, exactly, v0. boundary.
      change (c :: ?x) with ([c] ++ x). take_all [c].
      eapply match_rep_rest;
        [cbn [length]; lia | all_in_class | cbn [length]; lia |].
      cbn [last_opt fold_left]. boundary. reflexivity.
    - reflexivity. }
  assert (Hs : strip v0 = v0).
  { eapply (@strip_id _ c); [reflexivity | now apply alpha_not_space
                             | reflexivity | now apply digit_not_space]. }
  split.
  - unfold is_passport_number. cbn [is_empty v0]. fold v0.
    rewrite Hs. apply (search_head _ _ Hm).
  - unfold redact_text. cbn [is_empty v0]. fold v0. rewrite Hs.
    change (str_eqb (lit "passport") (lit "phone")) with false.
    change (str_eqb (lit "passport") (lit "aadhar")) with false.
    change (str_eqb (lit "passport") (lit "passport")) with true. cbv iota.
    now apply sub_match_all.
Qed.

Lemma passport_value_witness :
  is_passport_number (lit "P1234567") = true
  /\ redact_text (lit "P1234567") (lit "passport")
     = Some (lit "[REDACTED_PASSPORT]").
Proof.
  apply (@passport_value "P"%char (lit "1234567")); vm_compute; reflexivity.
Defined.

(** ** Payment handles *)

Lemma upi_local_not_at (c : ascii) : upi_local c = true -> c <> "@"%char.
Proof. by_cases_on_char c. Qed.

(** A value [l@h] of the payment-handle pattern is detected, and its mask
    keeps the first three characters of the local part (all of it, if it has
    two or three) before [XXX@] and the handle. *)
Theorem upi_value (l h : str) :
  is_upi_shape l h = true ->
  is_upi_id (l ++ lit "@" ++ h) = true
  /\ redact_text (l ++ lit "@" ++ h) (lit "upi")
     = Some (firstn 3 l ++ lit "XXX@" ++ h).
Proof.
  unfold is_upi_shape.
  rewrite !andb_true_iff, !forallb_Forall, !Nat.leb_le.
  intros [[[[[[Hw Fl] L2] L256] Fh] H2] H64].
  destruct l as [|c l'] eqn:El; [discriminate|]. rewrite <- El in *.
  assert (Hh : h <> []) by (destruct h; simpl in *; [lia | discriminate]).
  destruct (@last_opt_Forall _ h (Some "@"%char) Hh Fh) as (e & Ee & He).
  set (v := l ++ lit "@" ++ h).
  assert (Hne : v <> []) by (unfold v; rewrite El; discriminate).
  assert (Hm : match_here patterns_upi None v = Some (length v)).
  { etransitivity.
    - unfold patterns_upi, one, v.
      rewrite match_boundary
        by (rewrite El; unfold at_boundary; cbn [app hd_error word_opt];
            now rewrite Hw).
      take l. { apply prefix_len_cap_stop; [assumption | reflexivity | lia]. }
      take_all (lit "@").
      eapply match_rep_rest; [lia | assumption | lia |].
      rewrite Ee.
      rewrite match_boundary; [reflexivity|].
      unfold at_boundary. cbn [word_opt hd_error]. now rewrite alpha_word.
    - f_equal. unfold v. rewrite !length_app. cbn [length lit list_ascii_of_string].
      lia. }
  assert (Hs : strip v = v).
  { eapply (@strip_id _ c e).
    - unfold v. now rewrite El.
    - now apply word_not_space.
    - unfold v. rewrite !last_opt_app. exact Ee.
    - now apply alpha_not_space. }
  assert (He0 : is_empty v = false) by now apply is_empty_false.
  split.
  - unfold is_upi_id. fold v. rewrite He0, Hs. apply (search_head _ _ Hm).
  - unfold redact_text. fold v. rewrite He0, Hs.
    change (str_eqb (lit "upi") (lit "phone")) with false.
    change (str_eqb (lit "upi") (lit "aadhar")) with false.
    change (str_eqb (lit "upi") (lit "passport")) with false.
    change (str_eqb (lit "upi") (lit "upi")) with true. cbv iota.
    apply sub_match_all; [reflexivity | assumption | assumption |].
    unfold mask_upi, v. change (lit "@" ++ h) with ("@"%char :: h).
    rewrite split_on_app.
    + rewrite split_on_none; [reflexivity|].
      intros Hin. rewrite Forall_forall in Fh.
      exact (alpha_not_at (Fh _ Hin) eq_refl).
    + intros Hin. rewrite Forall_forall in Fl.
      exact (upi_local_not_at (Fl _ Hin) eq_refl).
Qed.

Lemma upi_value_witness :
  is_upi_id (lit "ab" ++ lit "@" ++ lit "ybl") = true
  /\ redact_text (lit "ab" ++ lit "@" ++ lit "ybl") (lit "upi")
     = Some (firstn 3 (lit "ab") ++ lit "XXX@" ++ lit "ybl").
Proof.
  apply (@upi_value (lit "ab") (lit "ybl")). vm_compute. reflexivity.
Defined.

(** ** Names *)

Lemma is_prefix_refl (s : str) : is_prefix s s = true.
Proof. induction s as [|c s IH]; simpl; [reflexivity|]. now rewrite Ascii.eqb_refl. Qed.

Lemma replace_from_skip_all (old new t : str) :
  replace_from old new (length t) t = [].
Proof. induction t as [|c t IH]; simpl; auto. Qed.

(** A string replaced as a whole. *)
Lemma replace_self (s new : str) : s <> [] -> replace s s new = new.
Proof.
  intros Hs. destruct s as [|c s]; [congruence|]. unfold replace.
  change (replace_from (c :: s) new 0 (c :: s))
    with (if is_prefix (c :: s) (c :: s)
          then new ++ replace_from (c :: s) new (length (c :: s) - 1) s
          else c :: replace_from (c :: s) new 0 s).
  rewrite is_prefix_refl. cbn [length]. rewrite Nat.sub_succ, Nat.sub_0_r.
  now rewrite replace_from_skip_all, app_nil_r.
Qed.

(** A value that is two capitalized words is masked to the two initials,
    each before [XXX], with one space between them; if one of the words is in
    the stoplist the value is left as it is. *)
Theorem name_value_mask (w1 w2 sp : str) :
  is_capitalized w1 = true -> is_capitalized w2 = true -> is_blank sp = true ->
  redact_text (w1 ++ sp ++ w2) (lit "name")
  = Some (if str_in (lower w1) stoplist || str_in (lower w2) stoplist
          then w1 ++ sp ++ w2
          else firstn 1 w1 ++ lit "XXX " ++ firstn 1 w2 ++ lit "XXX").
Proof.
  intros H1 H2 H3.
  apply is_capitalized_spec in H1, H2. apply is_blank_spec in H3.
  assert (Hne : w1 ++ sp ++ w2 <> []).
  { destruct H1 as (c & t & -> & _). discriminate. }
  unfold redact_text.
  rewrite (proj2 (is_empty_false _) Hne), name_strip by assumption.
  change (str_eqb (lit "name") (lit "phone")) with false.
  change (str_eqb (lit "name") (lit "aadhar")) with false.
  change (str_eqb (lit "name") (lit "passport")) with false.
  change (str_eqb (lit "name") (lit "upi")) with false.
  change (str_eqb (lit "name") (lit "email")) with false.
  change (str_eqb (lit "name") (lit "name")) with true. cbv iota.
  rewrite extract_names_two by assumption.
  destruct (str_in (lower w1) stoplist || str_in (lower w2) stoplist);
    [reflexivity|].
  cbn [fold_left redact_names_step bind]. unfold mask_name.
  rewrite split_ws_two by assumption.
  destruct H1 as (c1 & t1 & -> & _), H2 as (c2 & t2 & -> & _).
  cbn [length Nat.leb nth_error Nat.sub bind firstn].
  now rewrite replace_self.
Qed.

Lemma name_value_mask_witness :
  redact_text (lit "Rahul" ++ lit "  " ++ lit "Sharma") (lit "name")
  = Some (lit "RXXX SXXX").
Proof.
  apply (@name_value_mask (lit "Rahul") (lit "Sharma") (lit "  "));
    vm_compute; reflexivity.
Defined.

(** ** National identity numbers written with other whitespace *)

(** The detector also accepts twelve digits once all whitespace is removed;
    the mask only knows the pattern.  A value whose digits are twelve without
    its whitespace, and in which the pattern is not found, is detected and
    comes back from the mask unchanged. *)
Theorem spread_aadhar_not_masked (text : str) (d : ascii) (ds : str) :
  filter (fun c => negb (is_space c)) (strip text) = d :: ds ->
  in_range 50 57 d = true -> length ds = 11 -> forallb is_digit ds = true ->
  search patterns_aadhar (strip text) = false ->
  is_aadhar_number text = true
  /\ redact_text text (lit "aadhar") = Some (strip text).
Proof.
  intros Hc Hd Hl Hf Hs.
  assert (Hne : is_empty text = false).
  { destruct text; [discriminate Hc | reflexivity]. }
  split.
  - unfold is_aadhar_number. rewrite Hne, Hs, Hc.
    pose proof (@digits_of _ _ Hl Hf) as Hds. clear Hl Hf Hc. explicit_digits.
    assert (Hm : exists n, match_here aadhar_whole None
                             [d; a; a0; a1; a2; a3; a4; a5; a6; a7; a8; a9]
                           = Some n).
    { eexists. unfold aadhar_whole, one, exactly.
      change (match_here (Bos :: ?r) None ?s) with (match_here r None s).
      change (d :: ?x) with ([d] ++ x). take_all [d].
      eapply match_rep_rest;
        [cbn [length]; lia | all_in_class | cbn [length]; lia |].
      reflexivity. }
    destruct Hm as (n & Hm). unfold rmatch. now rewrite Hm.
  - unfold redact_text. rewrite Hne.
    change (str_eqb (lit "aadhar") (lit "phone")) with false.
    change (str_eqb (lit "aadhar") (lit "aadhar")) with true. cbv iota.
    now apply sub_no_match.
Qed.

Lemma spread_aadhar_not_masked_witness :
  is_aadhar_number (lit "2345  6789  0123") = true
  /\ redact_text (lit "2345  6789  0123") (lit "aadhar")
     = Some (lit "2345  6789  0123").
Proof.
  apply (@spread_aadhar_not_masked (lit "2345  6789  0123") "2"%char
           (lit "34567890123")); vm_compute; reflexivity.
Defined.

(** ** E-mail addresses *)

(** An address [l@h.t] is detected by [is_email], whatever the length of its
    local part; its mask is [XXX@] and the domain, after the first three
    characters of the local part if it has more than three and after nothing
    otherwise. *)
Theorem email_value (l h t : str) :
  is_email_shape l h t = true ->
  is_email (l ++ lit "@" ++ h ++ lit "." ++ t) = true
  /\ redact_text (l ++ lit "@" ++ h ++ lit "." ++ t) (lit "email")
     = Some ((if 3 <? length l then firstn 3 l else [])
             ++ lit "XXX@" ++ h ++ lit "." ++ t).
Proof.
  intros H. pose proof (is_email_shape_spec _ _ _ H) as Hs. split.
  - change (l ++ lit "@" ++ h ++ lit "." ++ t) with (email_of l h t).
    assert (Hne : email_of l h t <> []).
    { destruct Hs as [(c & l' & -> & _) _ _ _ _ _]. discriminate. }
    unfold is_email.
    rewrite (proj2 (is_empty_false _) Hne), email_strip by assumption.
    apply (search_head _ _ (email_match Hs)).
  - change (l ++ lit "@" ++ h ++ lit "." ++ t) with (email_of l h t).
    exact (email_redact Hs).
Qed.

Lemma email_value_witness :
  (is_email (lit "rahul" ++ lit "@" ++ lit "x" ++ lit "." ++ lit "com") = true
   /\ redact_text (lit "rahul" ++ lit "@" ++ lit "x" ++ lit "." ++ lit "com")
                  (lit "email")
      = Some ((if 3 <? length (lit "rahul") then firstn 3 (lit "rahul") else [])
              ++ lit "XXX@" ++ lit "x" ++ lit "." ++ lit "com"))
  /\ (is_email (lit "ab" ++ lit "@" ++ lit "x" ++ lit "." ++ lit "com") = true
      /\ redact_text (lit "ab" ++ lit "@" ++ lit "x" ++ lit "." ++ lit "com")
                     (lit "email")
         = Some ((if 3 <? length (lit "ab") then firstn 3 (lit "ab") else [])
                 ++ lit "XXX@" ++ lit "x" ++ lit "." ++ lit "com")).
Proof.
  split.
  - apply (@email_value (lit "rahul") (lit "x") (lit "com")).
    vm_compute. reflexivity.
  - apply (@email_value (lit "ab") (lit "x") (lit "com")).
    vm_compute. reflexivity.
Defined.

Lemma upi_fires_on_email_witness :
  is_upi_id (lit "rahul" ++ lit "@" ++ lit "gmail" ++ lit "." ++ lit "com") = true.
Proof.
  apply (@upi_fires_on_email (lit "rahul") (lit "gmail") (lit "com"));
    vm_compute; try reflexivity; split; lia.
Defined.

(** ** Records: empty fields and clean records *)

Lemma scan_entry_plain (kv : str * value) :
  field_fires kv = false -> scan_entry kv = plain (snd kv).
Proof.
  unfold field_fires, scan_entry, plain, scan_value, fires.
  destruct (none_or_empty (snd kv)); [reflexivity|]. cbn [negb andb].
  intros Hf.
  apply orb_false_iff in Hf. destruct Hf as [Hf ->].
  apply orb_false_iff in Hf. destruct Hf as [Hf ->].
  apply orb_false_iff in Hf. destruct Hf as [-> ->]. reflexivity.
Qed.

Lemma empty_field_quiet (data : dict) (kv : str * value) :
  none_or_empty (snd kv) = true ->
  field_fires kv = false /\ field_bucket data kv = None
  /\ scan_entry kv = snd kv.
Proof.
  intros H. unfold field_fires, field_bucket, scan_entry. now rewrite H.
Qed.

Lemma filter_none {A : Type} (p : A -> bool) (l : list A) :
  (forall x, In x l -> p x = false) -> filter p l = [].
Proof.
  induction l as [|x l IH]; intros H; [reflexivity|].
  cbn [filter]. rewrite (H x) by now left.
  apply IH. intros y Hy. apply H. now right.
Qed.

(** A field that is [None] or the empty string comes back as it is, whatever
    its key, and does not count for the verdict: a record of such fields
    only is returned unchanged with [has_pii] false. *)
Theorem empty_fields_pass (data : dict) :
  NoDup (keys data) ->
  exists hp rd,
    analyze_record data = Some (hp, rd)
    /\ (forall k v, In (k, v) data -> none_or_empty v = true ->
                    dict_get rd k = Some v)
    /\ (forallb (fun kv => none_or_empty (snd kv)) data = true ->
        hp = false /\ rd = data).
Proof.
  intros Hnd. exists (verdict data), (redacted data).
  split; [now apply analyze_record_spec|]. split.
  - intros k v Hin He.
    pose proof (@dict_get_redacted data (k, v) Hnd Hin) as Hget.
    cbn [fst] in Hget. rewrite Hget. f_equal.
    destruct (@empty_field_quiet data (k, v) He) as (_ & Hb & Hs).
    unfold final. rewrite Hb, Hs. now destruct (2 <=? count data).
  - intros Hall. rewrite forallb_forall in Hall.
    assert (Hf : existsb field_fires data = false).
    { apply not_true_is_false. intros H. apply existsb_exists in H.
      destruct H as (kv & Hin & H).
      destruct (@empty_field_quiet data kv (Hall _ Hin)) as (Hq & _). congruence. }
    assert (Hm : forall ty, members data ty data = []).
    { intros ty. unfold members. rewrite filter_none; [reflexivity|].
      intros kv Hin. unfold in_bucket.
      destruct (@empty_field_quiet data kv (Hall _ Hin)) as (_ & -> & _).
      reflexivity. }
    assert (Hc : count data = 0).
    { unfold count. induction bucket_names as [|ty tys IH]; [reflexivity|].
      cbn [filter]. now rewrite Hm. }
    unfold verdict, redacted. rewrite Hf, Hc. cbn [Nat.leb orb]. split; [reflexivity|].
    rewrite <- (map_id data) at 2. apply map_ext_in. intros [k v] Hin.
    destruct (@empty_field_quiet data (k, v) (Hall _ Hin)) as (_ & _ & ->).
    reflexivity.
Qed.

Lemma empty_fields_pass_witness :
  exists hp rd,
    analyze_record blank_record = Some (hp, rd)
    /\ (forall k v, In (k, v) blank_record -> none_or_empty v = true ->
                    dict_get rd k = Some v)
    /\ (forallb (fun kv => none_or_empty (snd kv)) blank_record = true ->
        hp = false /\ rd = blank_record).
Proof.
  apply (@empty_fields_pass blank_record).
  apply distinct_NoDup. vm_compute. reflexivity.
Defined.

(** A record that is not flagged is returned with no value masked: every
    field comes back as it is if [None] or empty, and else as its stripped
    string. *)
Theorem clean_record_unmasked (data rd : dict) :
  NoDup (keys data) -> analyze_record data = Some (false, rd) ->
  rd = map (fun kv => (fst kv, plain (snd kv))) data.
Proof.
  intros Hnd H. rewrite analyze_record_spec in H by assumption.
  injection H as Hv <-. unfold verdict in Hv.
  apply orb_false_iff in Hv. destruct Hv as [Hf Hc].
  unfold redacted. rewrite Hc. apply map_ext_in. intros kv Hin.
  f_equal. apply scan_entry_plain.
  destruct (field_fires kv) eqn:E; [|reflexivity].
  assert (existsb field_fires data = true)
    by (apply existsb_exists; now exists kv).
  congruence.
Qed.

Lemma clean_record_unmasked_witness :
  [(lit "note", VStr (lit "hi")); (lit "age", VStr (lit "42"))]
  = map (fun kv => (fst kv, plain (snd kv))) note_and_age.
Proof.
  apply (@clean_record_unmasked note_and_age).
  - apply distinct_NoDup. vm_compute. reflexivity.
  - vm_compute. reflexivity.
Defined.

(** ** Records: the order of the fields *)

Lemma dict_has_In (d : dict) (k : str) : dict_has d k = true <-> In k (keys d).
Proof.
  unfold dict_has. induction d as [|[k' v] d IH]; cbn [dict_get keys map fst In].
  - split; [discriminate | tauto].
  - destruct (str_eqb k' k) eqn:E.
    + apply str_eqb_eq in E. tauto.
    + apply str_eqb_neq in E. rewrite IH. unfold keys. tauto.
Qed.

Lemma dict_get_absent (d : dict) (k : str) :
  ~ In k (keys d) -> dict_get d k = None.
Proof.
  intros H. pose proof (dict_has_In d k) as Hh. unfold dict_has in Hh.
  destruct (dict_get d k); [|reflexivity]. elim H. now apply Hh.
Qed.

Lemma bool_ext (a b : bool) : (a = true <-> b = true) -> a = b.
Proof. destruct a, b; intuition congruence. Qed.

Lemma dict_has_perm (d d' : dict) (k : str) :
  Permutation d d' -> dict_has d k = dict_has d' k.
Proof.
  intros P. apply bool_ext. rewrite !dict_has_In. unfold keys.
  split; apply Permutation_in; [|symmetry]; now apply Permutation_map.
Qed.

Lemma field_bucket_perm (d d' : dict) (kv : str * value) :
  Permutation d d' -> field_bucket d kv = field_bucket d' kv.
Proof.
  intros P. unfold field_bucket, bucket_of. now rewrite (dict_has_perm _ P).
Qed.

Lemma existsb_perm {A : Type} (p : A -> bool) (l l' : list A) :
  Permutation l l' -> existsb p l = existsb p l'.
Proof.
  intros P. apply bool_ext. rewrite !existsb_exists.
  split; intros (x & Hin & Hx); exists x; split; auto;
    [|symmetry in P]; eapply Permutation_in; eauto.
Qed.

Lemma members_empty (data : dict) (ty : str) :
  is_empty (members data ty data) = negb (existsb (in_bucket data ty) data).
Proof.
  unfold members. generalize (in_bucket data ty). intros p.
  induction data as [|kv l IH]; [reflexivity|].
  cbn [filter existsb]. destruct (p kv); [reflexivity | exact IH].
Qed.

Lemma existsb_same {A : Type} (p q : A -> bool) (l : list A) :
  (forall x, p x = q x) -> existsb p l = existsb q l.
Proof.
  intros H. induction l as [|x l IH]; [reflexivity|].
  cbn [existsb]. now rewrite H, IH.
Qed.

Lemma count_perm (d d' : dict) : Permutation d d' -> count d = count d'.
Proof.
  intros P. unfold count. f_equal. apply filter_ext. intros ty.
  rewrite !members_empty, (existsb_perm _ P). do 2 f_equal.
  apply existsb_same. intros kv. unfold in_bucket.
  now rewrite (field_bucket_perm _ P).
Qed.

(** The result does not depend on the order of the fields: two records with
    the same fields in another order get the same verdict and, key by key,
    the same redacted value. *)
Theorem order_independent (data data' : dict) :
  NoDup (keys data) -> Permutation data data' ->
  exists hp rd rd',
    analyze_record data = Some (hp, rd)
    /\ analyze_record data' = Some (hp, rd')
    /\ forall k, dict_get rd k = dict_get rd' k.
Proof.
  intros Hnd P.
  assert (Hnd' : NoDup (keys data')).
  { unfold keys in *. eapply Permutation_NoDup; [|exact Hnd].
    now apply Permutation_map. }
  exists (verdict data), (redacted data), (redacted data').
  split; [now apply analyze_record_spec|]. split.
  - rewrite analyze_record_spec by assumption. unfold verdict.
    now rewrite (existsb_perm _ P), (count_perm P).
  - intros k. destruct (in_dec (list_eq_dec ascii_dec) k (keys data)) as [Hin|Hout].
    + unfold keys in Hin. apply in_map_iff in Hin.
      destruct Hin as (kv & <- & Hin).
      rewrite (@dict_get_redacted data kv Hnd Hin).
      rewrite (@dict_get_redacted data' kv Hnd' (Permutation_in _ P Hin)).
      unfold final. now rewrite (count_perm P), (field_bucket_perm _ P).
    + rewrite !dict_get_absent; [reflexivity| |].
      * unfold redacted. rewrite keys_map_snd. intros H. apply Hout.
        unfold keys in *. eapply Permutation_in; [|exact H].
        symmetry. now apply Permutation_map.
      * unfold redacted. now rewrite keys_map_snd.
Qed.

Lemma order_independent_witness :
  exists hp rd rd',
    analyze_record city_and_email = Some (hp, rd)
    /\ analyze_record (rev city_and_email) = Some (hp, rd')
    /\ forall k, dict_get rd k = dict_get rd' k.
Proof.
  apply (@order_independent city_and_email (rev city_and_email)).
  - apply distinct_NoDup. vm_compute. reflexivity.
  - apply Permutation_rev.
Defined.

(** ** Records: the buckets *)

(** After the scan of a record with distinct keys, no key is twice in a
    bucket and no key is in two buckets: the second loop masks a field once
    at most. *)
Theorem buckets_partition (data : dict) :
  NoDup (keys data) ->
  exists st,
    scan data = Some st
    /\ (forall ty, In ty bucket_names ->
                   NoDup (bucket (combinatorial_elements st) ty))
    /\ (forall ty1 ty2 k,
          In ty1 bucket_names -> In ty2 bucket_names ->
          In k (bucket (combinatorial_elements st) ty1) ->
          In k (bucket (combinatorial_elements st) ty2) -> ty1 = ty2).
Proof.
  intros Hnd. destruct (scan_spec data) as (st & Hst & _ & _ & Hb).
  exists st. split; [assumption|]. split.
  - intros ty Hty. rewrite (Hb ty Hty). now apply members_NoDup.
  - intros ty1 ty2 k H1 H2 K1 K2.
    apply (@bucket_scan_iff data st ty1 k Hst H1) in K1.
    apply (@bucket_scan_iff data st ty2 k Hst H2) in K2.
    destruct K1 as (v1 & I1 & B1), K2 as (v2 & I2 & B2).
    assert (E : (k, v1) = (k, v2))
      by (apply (same_key_same_field data); auto).
    injection E as <-. congruence.
Qed.

Lemma buckets_partition_witness :
  exists st,
    scan address_with_email = Some st
    /\ (forall ty, In ty bucket_names ->
                   NoDup (bucket (combinatorial_elements st) ty))
    /\ (forall ty1 ty2 k,
          In ty1 bucket_names -> In ty2 bucket_names ->
          In k (bucket (combinatorial_elements st) ty1) ->
          In k (bucket (combinatorial_elements st) ty2) -> ty1 = ty2).
Proof.
  apply (@buckets_partition address_with_email).
  apply distinct_NoDup. vm_compute. reflexivity.
Defined.

Lemma bucket_of_email (data : dict) (k s : str) :
  bucket_of data k s = Some (lit "email") <->
  k <> lit "name"
  /\ (In k [lit "first_name"; lit "last_name"] ->
      dict_has data (lit "name") = true)
  /\ (k = lit "email" \/ is_email s = true).
Proof.
  unfold bucket_of.
  destruct (str_eqb k (lit "name")) eqn:En.
  { apply str_eqb_eq in En. cbn [orb]. split.
    - destruct (_ || _); discriminate.
    - intros [H _]. contradiction. }
  apply str_eqb_neq in En. cbn [orb].
  destruct (str_in k [lit "first_name"; lit "last_name"]) eqn:Ef.
  - apply str_in_In in Ef. destruct (dict_has data (lit "name")) eqn:Eh;
      cbn [negb andb].
    + destruct (str_eqb k (lit "email")) eqn:Ee.
      * apply str_eqb_eq in Ee. cbn [orb]. intuition.
      * cbn [orb]. destruct (is_email s).
        -- intuition.
        -- apply str_eqb_neq in Ee. split; [|intuition congruence].
           cbn [In] in Ef. destruct Ef as [<-|[<-|[]]]; discriminate.
    + rewrite orb_true_r. split; [discriminate|].
      intros (_ & H & _). specialize (H Ef). discriminate.
  - apply str_in_not_In in Ef. cbn [andb].
    destruct (str_eqb k (lit "email")) eqn:Ee.
    + apply str_eqb_eq in Ee. cbn [orb]. intuition.
    + apply str_eqb_neq in Ee. cbn [orb]. destruct (is_email s).
      * intuition.
      * split; [|intuition congruence].
        destruct (str_in k [lit "address"; _; _; _]); [discriminate|].
        destruct (str_in k [lit "device_id"; _]) eqn:Ed; [|discriminate].
        intros [= ->]. discriminate.
Qed.

(** The key of a field is collected into the Email bucket exactly when the
    field is neither [None] nor empty, the Name test does not take it first,
    and either its key is [email] or its value holds an e-mail address:
    under a key such as [address] or [device_id] too. *)
Theorem email_bucket_iff (data : dict) (k : str) :
  exists st,
    scan data = Some st
    /\ (In k (b_email (combinatorial_elements st)) <->
        exists v, In (k, v) data /\ none_or_empty v = false
          /\ k <> lit "name"
          /\ (In k [lit "first_name"; lit "last_name"] ->
              dict_has data (lit "name") = true)
          /\ (k = lit "email" \/ is_email (strip (py_str v)) = true)).
Proof.
  destruct (scan_spec data) as (st & Hst & _).
  exists st. split; [assumption|].
  change (b_email (combinatorial_elements st))
    with (bucket (combinatorial_elements st) (lit "email")).
  rewrite (@bucket_scan_iff data st (lit "email") k Hst) by (simpl; tauto).
  split; intros (v & Hin & H); exists v; (split; [assumption|]).
  - unfold field_bucket in H. cbn [fst snd] in H.
    destruct (none_or_empty v); [discriminate|].
    split; [reflexivity|]. now apply bucket_of_email.
  - destruct H as (Hne & H). unfold field_bucket. cbn [fst snd]. rewrite Hne.
    now apply bucket_of_email.
Qed.

Lemma bucket_of_by_key (data : dict) (k s ty : str) :
  In ty [lit "address"; lit "device_id"; lit "ip_address"] ->
  bucket_of data k s = Some ty <->
  (if str_eqb ty (lit "address")
   then In k [lit "address"; lit "city"; lit "pin_code"; lit "state"]
   else k = ty)
  /\ is_email s = false.
Proof.
  intros Hty.
  assert (Hto : bucket_of data k s = Some ty ->
                is_email s = false
                /\ ((str_in k [lit "address"; lit "city"; lit "pin_code"; lit "state"]
                     = true /\ ty = lit "address")
                    \/ (str_in k [lit "address"; lit "city"; lit "pin_code"; lit "state"]
                        = false /\ k = ty))).
  { unfold bucket_of.
    destruct (str_eqb k (lit "name") || _).
    { destruct (_ || _); [|discriminate]. intros [= <-].
      cbn [In] in Hty. destruct Hty as [H|[H|[H|[]]]]; discriminate H. }
    destruct (str_eqb k (lit "email") || is_email s) eqn:Ee.
    { intros [= <-].
      cbn [In] in Hty. destruct Hty as [H|[H|[H|[]]]]; discriminate H. }
    apply orb_false_iff in Ee. destruct Ee as [_ Ee].
    destruct (str_in k [lit "address"; _; _; _]) eqn:Ea.
    { intros [= <-]. auto. }
    destruct (str_in k [lit "device_id"; _]); [|discriminate].
    intros [= <-]. auto. }
  split.
  - intros H. destruct (Hto H) as (He & [[Ha ->]|[Ha <-]]).
    + split; [|assumption].
      change (str_eqb (lit "address") (lit "address")) with true. cbv iota.
      now apply str_in_In.
    + split; [|assumption].
      destruct (str_eqb k (lit "address")) eqn:E; [|reflexivity].
      apply str_eqb_eq in E. subst k. discriminate Ha.
  - intros [Hk He]. unfold bucket_of. rewrite He.
    cbn [In] in Hty. destruct Hty as [<-|[<-|[<-|[]]]].
    + change (str_eqb (lit "address") (lit "address")) with true in Hk.
      cbv iota in Hk. cbn [In] in Hk.
      destruct Hk as [<-|[<-|[<-|[<-|[]]]]]; reflexivity.
    + change (str_eqb (lit "device_id") (lit "address")) with false in Hk.
      cbv iota in Hk. subst k. reflexivity.
    + change (str_eqb (lit "ip_address") (lit "address")) with false in Hk.
      cbv iota in Hk. subst k. reflexivity.
Qed.

(** The key-only buckets: a field is collected into the Address bucket
    exactly when its key is [address], [city], [pin_code] or [state], and
    into the DeviceId or IpAddress bucket exactly when its key is the name
    of the bucket, provided that the field is neither [None] nor empty and
    its value holds no e-mail address, which would send it to the Email
    bucket. *)
Theorem key_bucket_iff (data : dict) (ty k : str) :
  In ty [lit "address"; lit "device_id"; lit "ip_address"] ->
  exists st,
    scan data = Some st
    /\ (In k (bucket (combinatorial_elements st) ty) <->
        (if str_eqb ty (lit "address")
         then In k [lit "address"; lit "city"; lit "pin_code"; lit "state"]
         else k = ty)
        /\ exists v, In (k, v) data /\ none_or_empty v = false
                     /\ is_email (strip (py_str v)) = false).
Proof.
  intros Hty. destruct (scan_spec data) as (st & Hst & _).
  exists st. split; [assumption|].
  rewrite (@bucket_scan_iff data st ty k Hst)
    by (cbn [In] in Hty; simpl; intuition).
  split.
  - intros (v & Hin & H). unfold field_bucket in H. cbn [fst snd] in H.
    destruct (none_or_empty v) eqn:Hne; [discriminate|].
    apply (@bucket_of_by_key data k _ ty Hty) in H. destruct H as [Hk He].
    split; [assumption|]. now exists v.
  - intros (Hk & v & Hin & Hne & He). exists v. split; [assumption|].
    unfold field_bucket. cbn [fst snd]. rewrite Hne.
    now apply (@bucket_of_by_key data k _ ty Hty).
Qed.

Lemma key_bucket_iff_witness :
  exists st,
    scan address_with_email = Some st
    /\ (In (lit "address") (bucket (combinatorial_elements st) (lit "address")) <->
        In (lit "address") [lit "address"; lit "city"; lit "pin_code"; lit "state"]
        /\ exists v, In (lit "address", v) address_with_email
                     /\ none_or_empty v = false
                     /\ is_email (strip (py_str v)) = false).
Proof.
  apply (@key_bucket_iff address_with_email (lit "address") (lit "address")).
  left. reflexivity.
Defined.

(** The record of the example: the value under [address] is an e-mail
    address and goes to the Email bucket. *)
Example address_with_email_buckets :
  option_map combinatorial_elements (scan address_with_email)
  = Some (Buckets [] [lit "address"] [lit "city"] [lit "device_id"] []).
Proof. vm_compute. reflexivity. Qed.

(** ** The column that holds the record *)

Lemma lower_char_twice (c : ascii) : lower_char (lower_char c) = lower_char c.
Proof. destruct c as [[] [] [] [] [] [] [] []]; reflexivity. Qed.

Lemma lower_twice (s : str) : lower (lower s) = lower s.
Proof.
  unfold lower. rewrite map_map. apply map_ext. apply lower_char_twice.
Qed.

Lemma find_map {A B : Type} (f : A -> B) (p : B -> bool) (l : list A) :
  find p (map f l) = option_map f (find (fun x => p (f x)) l).
Proof.
  induction l as [|x l IH]; [reflexivity|].
  cbn [map find]. destruct (p (f x)); [reflexivity | exact IH].
Qed.

Lemma find_same {A : Type} (p q : A -> bool) (l : list A) :
  (forall x, p x = q x) -> find p l = find q l.
Proof.
  intros H. induction l as [|x l IH]; [reflexivity|].
  cbn [find]. now rewrite H, IH.
Qed.

Lemma json_test (col : str) :
  is_json_column col = contains (lit "json") (lower col).
Proof.
  unfold is_json_column.
  destruct (contains (lit "json") (lower col)) eqn:E; [reflexivity|].
  cbn [orb]. apply str_in_not_In. intros Hin. cbn [In] in Hin.
  destruct Hin as [H|[H|[]]]; rewrite <- H in E; discriminate E.
Qed.

Lemma json_column_names (names : list str) (rest : list (option str)) :
  json_column (map Some names ++ rest)
  = match find (fun col => contains (lit "json") (lower col)) names with
    | Some col => Some (Some col)
    | None => json_column rest
    end.
Proof.
  induction names as [|col names IH]; [reflexivity|].
  cbn [map app json_column find]. rewrite json_test.
  destruct (contains (lit "json") (lower col)); [reflexivity | exact IH].
Qed.

(** The record is read from the first column whose name holds [json] once
    in lower case: the two names the test lists add nothing to it.  On a row
    with more cells than the header the keys end with [None]: a column found
    before it is still chosen, and the loop raises if there is none.  The
    choice is blind to the case of the column names. *)
Theorem json_column_first (names : list str) (cols rest : list (option str)) :
  json_column (map Some names)
  = Some (find (fun col => contains (lit "json") (lower col)) names)
  /\ json_column (map Some names ++ None :: rest)
     = option_map Some
         (find (fun col => contains (lit "json") (lower col)) names)
  /\ json_column (map (option_map lower) cols)
     = option_map (option_map lower) (json_column cols).
Proof.
  repeat split.
  - rewrite <- (app_nil_r (map Some names)), json_column_names.
    now destruct (find _ names).
  - rewrite json_column_names. now destruct (find _ names).
  - induction cols as [|[col|] cols IH]; [reflexivity| |reflexivity].
    cbn [map option_map json_column]. rewrite !json_test, lower_twice.
    destruct (contains (lit "json") (lower col)); [reflexivity | exact IH].
Qed.
